(** * React-Wizard: the wizard controller and its context accessor

    A shallow embedding of [src/Wizard.tsx] (the [Wizard] component) and of
    [src/WizardContext.tsx] ([useWizardContext], [WizardProvider]), together
    with the part of JavaScript and of React's hook semantics the component
    relies on:

    - [Object.keys] on an ordinary object (array-index keys first, ascending,
      then the other string keys in creation order);
    - array reads, [indexOf] and [includes] on the resulting array;
    - [useState] cells whose queued updates (values or updater functions) are
      applied in order when the event handler returns, with React's bail-out
      when every cell is [Object.is]-identical afterwards;
    - [useEffect], whose effect runs after the first render and after every
      later render in which one dependency is not [Object.is]-identical to
      its previous value.  *)

From Stdlib Require Import ZArith Ascii String.
From stdpp Require Import base tactics option list gmap strings.

Local Open Scope Z_scope.

(** ** The JavaScript layer *)

Module JS.

(** *** Array-index property keys

    A string is an array index when it is the canonical decimal spelling of
    an integer between 0 and 2^32 - 2. *)

Definition digit_of (a : ascii) : option N :=
  let n := N_of_ascii a in
  if ((48 <=? n) && (n <=? 57))%N then Some (n - 48)%N else None.

Fixpoint digits_value (acc : N) (s : string) : option N :=
  match s with
  | EmptyString => Some acc
  | String a rest =>
      match digit_of a with
      | Some d => digits_value (10 * acc + d)%N rest
      | None => None
      end
  end.

Definition array_index (s : string) : option N :=
  match s with
  | EmptyString => None
  | String a rest =>
      if (N_of_ascii a =? 48)%N && negb (String.eqb rest EmptyString) then None
      else
        match digits_value 0 s with
        | Some n => if (n <? 2 ^ 32 - 1)%N then Some n else None
        | None => None
        end
  end.

Definition is_array_index (s : string) : bool :=
  match array_index s with Some _ => true | None => false end.

(** *** Ordinary objects

    An object is the list of its own enumerable string-keyed properties in
    creation order; each key occurs once. *)

Definition object_of (A : Type) : Type := list (string * A).

Definition well_formed {A} (o : object_of A) : Prop := NoDup (o.*1).

(** [o[k]] on own properties.  The wizard reads its table at a key that
    [Object.keys] returned, which is an own property, or at ["undefined"],
    which [Object.prototype] does not define, so that the prototype chain
    never answers. *)
Fixpoint get_prop {A} (o : object_of A) (k : string) : option A :=
  match o with
  | [] => None
  | (k', v) :: rest => if decide (k' = k) then Some v else get_prop rest k
  end.

(** Property keys are strings: [o[undefined]] reads the key ["undefined"]. *)
Definition to_property_key (k : option string) : string :=
  match k with
  | Some s => s
  | None => "undefined"%string
  end.

(** *** [Object.keys] *)

Fixpoint insert_index (k : N * string) (l : list (N * string))
  : list (N * string) :=
  match l with
  | [] => [k]
  | h :: t => if (k.1 <=? h.1)%N then k :: h :: t else h :: insert_index k t
  end.

Definition sort_index (l : list (N * string)) : list (N * string) :=
  foldr insert_index [] l.

Fixpoint index_keys (ks : list string) : list (N * string) :=
  match ks with
  | [] => []
  | k :: rest =>
      match array_index k with
      | Some n => (n, k) :: index_keys rest
      | None => index_keys rest
      end
  end.

Fixpoint name_keys (ks : list string) : list string :=
  match ks with
  | [] => []
  | k :: rest =>
      if is_array_index k then name_keys rest else k :: name_keys rest
  end.

Definition own_keys {A} (o : object_of A) : list string :=
  (sort_index (index_keys (o.*1))).*2 ++ name_keys (o.*1).

(** *** Arrays of strings *)

(** [a[i]]: [undefined] outside the array. *)
Definition at_index (a : list string) (i : Z) : option string :=
  if i <? 0 then None else a !! Z.to_nat i.

Fixpoint index_from (a : list string) (s : string) (i : Z) : Z :=
  match a with
  | [] => -1
  | x :: rest => if decide (x = s) then i else index_from rest s (i + 1)
  end.

(** [a.indexOf(x)] with strict equality; [x] may be [undefined], which no
    element of an array of strings equals. *)
Definition indexOf (a : list string) (x : option string) : Z :=
  match x with
  | Some s => index_from a s 0
  | None => -1
  end.

Fixpoint includes (a : list string) (s : string) : bool :=
  match a with
  | [] => false
  | x :: rest => if decide (x = s) then true else includes rest s
  end.

Definition length (a : list string) : Z := Z.of_nat (List.length a).

End JS.

(** ** Objects held in the data record

    The wizard never mutates an object: it only stores references and builds
    new objects by spread.  An object is therefore modelled by its identity
    (what [Object.is] compares) and its immutable fields.  [Caller n] names
    an object allocated by the embedding application, [Own n] the [n]-th
    object or array allocated by the wizard itself. *)

Inductive ref : Type :=
| Caller (n : nat)
| Own (n : nat).

#[global] Instance ref_eq_dec : EqDecision ref.
Proof. solve_decision. Defined.

Section Model.

Context {V C : Type} `{EqDecision V}.

Record object : Type := Obj {
  ref_of : ref;
  fields : gmap string V
}.

(** Two descriptions denote the same object exactly when they agree on
    identity and content, so [Object.is] is equality of descriptions. *)
#[global] Instance object_eq_dec : EqDecision object.
Proof. solve_decision. Defined.

(** [{...prev, ...newData}]: the fields of [newData] win. *)
Definition spread (prev newData : gmap string V) : gmap string V :=
  newData ∪ prev.

(** *** Props of the component ([WizardProps]) *)

Record props : Type := Props {
  stepMapping : JS.object_of C;
  initialData : option object;
  trackSteps : option bool;
  onStepChange : bool;        (* whether the callback is supplied *)
  data_testid : option string
}.

(** What the component does to the outside: calls of [onStepChange] and
    events dispatched on [window]. *)
Inductive output : Type :=
| OnStepChange (stepId : option string) (d : object) (stepIndex : Z)
| WindowEvent (name : string) (detail_step : option string)
    (detail_stepIndex : Z).

(** What a call of one of the five operations does, in program order: state
    updates queued on the two [useState] cells and calls of the parent's
    callback. *)
Inductive action : Type :=
| SetStep (s : option string)
| SetData (d : object)
| SetDataWith (updater : object → gmap string V)
| Call (o : output).

(** The hook state and the bindings of the latest render. *)
Record wizard : Type := Wizard {
  step : option string;       (* [useState<S>(steps[0])] *)
  data : object;              (* [useState<Partial<T>>(initialData)] *)
  initialData_now : object;   (* the binding [initialData] of this render *)
  steps_ref : ref;            (* identity of the array [steps] of this render *)
  next_ref : nat              (* allocation counter *)
}.

Record contextValue : Type := ContextValue {
  c_data : object;
  c_step : option string;
  c_nextStep : list action;
  c_prevStep : list action;
  c_toStep : string → list action;
  c_updateData : object → list action;
  c_resetData : option object → list action;
  c_stepIndex : Z;
  c_totalSteps : Z;
  c_trackSteps : bool
}.

Record stepProps : Type := StepProps {
  sp_data : object;
  sp_updateData : object → list action;
  sp_nextStep : list action;
  sp_prevStep : list action;
  sp_toStep : string → list action;
  sp_step : option string;
  sp_resetData : option object → list action;
  sp_stepIndex : Z;
  sp_totalSteps : Z;
  sp_trackSteps : bool;
  sp_testid : string
}.

Inductive element : Type :=
| NotFound (testid text : string)
| Provided (value : contextValue) (testid : string) (component : C)
    (component_props : stepProps).

(** The dependency list [step, steps, trackSteps] of the effect. *)
Record deps : Type := Deps {
  dep_step : option string;
  dep_steps : ref;
  dep_trackSteps : bool
}.

Definition same_deps (a b : deps) : bool :=
  bool_decide (dep_step a = dep_step b)
  && bool_decide (dep_steps a = dep_steps b)
  && bool_decide (dep_trackSteps a = dep_trackSteps b).

(** *** The component *)

Section Component.

Variable p : props.
Variable has_window : bool.   (* [typeof window !== 'undefined'] *)

Definition tracking : bool := default false (trackSteps p).

Definition parentTestId : string :=
  match data_testid p with
  | Some s => if decide (s = ""%string) then "wizard"%string else s
  | None => "wizard"%string
  end.

Definition steps : list string := JS.own_keys (stepMapping p).

(** The default [initialData = {}] is evaluated in every render in which
    the prop is omitted. *)
Definition bind_initialData (n : nat) : object * nat :=
  match initialData p with
  | Some o => (o, n)
  | None => (Obj (Own n) ∅, S n)
  end.

Definition render_body (s : option string) (d : option object) (n : nat)
  : wizard :=
  let '(init, n1) := bind_initialData n in
  {| step := s;
     data := default init d;
     initialData_now := init;
     steps_ref := Own n1;
     next_ref := S n1 |}.

Definition deps_of (w : wizard) : deps :=
  Deps (step w) (steps_ref w) tracking.

Definition step_change_effect (w : wizard) : list output :=
  if tracking && has_window then
    [WindowEvent "wizard:step-change" (step w) (JS.indexOf steps (step w))]
  else [].

Definition run_effect (previous : option deps) (w : wizard) : list output :=
  match previous with
  | Some d => if same_deps d (deps_of w) then [] else step_change_effect w
  | None => step_change_effect w
  end.

Definition CurrentStepComponent (w : wizard) : option C :=
  JS.get_prop (stepMapping p) (JS.to_property_key (step w)).

Definition call_onStepChange (s : option string) (d : object) (i : Z)
  : list action :=
  if onStepChange p then [Call (OnStepChange s d i)] else [].

Definition nextStep (w : wizard) : list action :=
  let currentIndex := JS.indexOf steps (step w) in
  if currentIndex + 1 <? JS.length steps then
    let nextStepId := JS.at_index steps (currentIndex + 1) in
    SetStep nextStepId
      :: call_onStepChange nextStepId (data w) (currentIndex + 1)
  else [].

Definition prevStep (w : wizard) : list action :=
  let currentIndex := JS.indexOf steps (step w) in
  if currentIndex - 1 >=? 0 then
    let prevStepId := JS.at_index steps (currentIndex - 1) in
    SetStep prevStepId
      :: call_onStepChange prevStepId (data w) (currentIndex - 1)
  else [].

Definition toStep (w : wizard) (stepId : string) : list action :=
  if JS.includes steps stepId then
    SetStep (Some stepId)
      :: call_onStepChange (Some stepId) (data w)
           (JS.indexOf steps (Some stepId))
  else [].

Definition updateData (newData : object) : list action :=
  [SetDataWith (λ prev, spread (fields prev) (fields newData))].

Definition resetData (w : wizard) (newData : option object) : list action :=
  let resetToData := default (initialData_now w) newData in
  SetData resetToData
    :: SetStep (JS.at_index steps 0)
    :: call_onStepChange (JS.at_index steps 0) resetToData 0.

Definition context_value (w : wizard) : contextValue :=
  {| c_data := data w;
     c_step := step w;
     c_nextStep := nextStep w;
     c_prevStep := prevStep w;
     c_toStep := toStep w;
     c_updateData := updateData;
     c_resetData := resetData w;
     c_stepIndex := JS.indexOf steps (step w);
     c_totalSteps := JS.length steps;
     c_trackSteps := tracking |}.

Definition step_props (w : wizard) : stepProps :=
  {| sp_data := data w;
     sp_updateData := updateData;
     sp_nextStep := nextStep w;
     sp_prevStep := prevStep w;
     sp_toStep := toStep w;
     sp_step := step w;
     sp_resetData := resetData w;
     sp_stepIndex := JS.indexOf steps (step w);
     sp_totalSteps := JS.length steps;
     sp_trackSteps := tracking;
     sp_testid :=
       parentTestId +:+ "-step-" +:+ JS.to_property_key (step w) |}.

(** The element the component returns. *)
Definition view (w : wizard) : element :=
  match CurrentStepComponent w with
  | None => NotFound (parentTestId +:+ "-not-found") "Step not found"
  | Some component =>
      Provided (context_value w) (parentTestId +:+ "-provider")
        component (step_props w)
  end.

(** *** React: mounting, and committing the updates of an event handler *)

Definition mount : wizard * list output :=
  let w := render_body (JS.at_index steps 0) None 0 in
  (w, run_effect None w).

(** The queued updates are applied in order; an updater function receives
    the pending state and its object literal allocates. *)
Fixpoint reduce (acts : list action) (s : option string) (d : object)
  (n : nat) : option string * object * nat :=
  match acts with
  | [] => (s, d, n)
  | SetStep s' :: rest => reduce rest s' d n
  | SetData d' :: rest => reduce rest s d' n
  | SetDataWith f :: rest => reduce rest s (Obj (Own n) (f d)) (S n)
  | Call _ :: rest => reduce rest s d n
  end.

Fixpoint calls (acts : list action) : list output :=
  match acts with
  | [] => []
  | Call o :: rest => o :: calls rest
  | _ :: rest => calls rest
  end.

(** [Object.is] on the two cells. *)
Definition same_state (w : wizard) (s : option string) (d : object) : bool :=
  bool_decide (s = step w) && bool_decide (d = data w).

(** An event handler ran [acts] with the closures of render [w]. *)
Definition commit (w : wizard) (acts : list action) : wizard * list output :=
  let '(s, d, n) := reduce acts (step w) (data w) (next_ref w) in
  if same_state w s d then
    ({| step := step w; data := data w;
        initialData_now := initialData_now w;
        steps_ref := steps_ref w; next_ref := n |},
     calls acts)
  else
    let w' := render_body s (Some d) n in
    (w', calls acts ++ run_effect (Some (deps_of w)) w').

(** The operations as a step-view or a context reader invokes them. *)
Inductive op : Type :=
| NextStep
| PrevStep
| ToStep (stepId : string)
| UpdateData (newData : object)
| ResetData (newData : option object).

Definition invoke (w : wizard) (o : op) : list action :=
  match o with
  | NextStep => c_nextStep (context_value w)
  | PrevStep => c_prevStep (context_value w)
  | ToStep stepId => c_toStep (context_value w) stepId
  | UpdateData newData => c_updateData (context_value w) newData
  | ResetData newData => c_resetData (context_value w) newData
  end.

(** One event whose handler calls the operations [ops] of the current
    render one after the other. *)
Definition handle (w : wizard) (ops : list op) : wizard * list output :=
  commit w (concat (invoke w <$> ops)).

(** One event whose handler calls one operation. *)
Definition dispatch (w : wizard) (o : op) : wizard * list output :=
  handle w [o].

(** A sequence of events, one operation each, every one issued from the
    render the previous one left; the outputs are collected in order. *)
Fixpoint run (w : wizard) (os : list op) : wizard * list output :=
  match os with
  | [] => (w, [])
  | o :: rest =>
      let '(w1, out1) := dispatch w o in
      let '(w2, out2) := run w1 rest in
      (w2, out1 ++ out2)
  end.

Definition stepIndex (w : wizard) : Z := c_stepIndex (context_value w).
Definition totalSteps (w : wizard) : Z := c_totalSteps (context_value w).

End Component.

(** ** The context ([WizardContext.tsx]) *)

(** The ancestors of a component, nearest first: scopes opened by
    [WizardProvider] and other components. *)
Inductive ancestor : Type :=
| ProviderScope (value : contextValue)
| Plain.

(** [<WizardProvider value={value}>] opens a scope holding [value]. *)
Definition WizardProvider (value : contextValue) : ancestor :=
  ProviderScope value.

(** [useContext(WizardContext)]: the value of the nearest enclosing scope,
    [undefined] (the default of [createContext]) when there is none. *)
Fixpoint useContext (ancestors : list ancestor) : option contextValue :=
  match ancestors with
  | [] => None
  | ProviderScope value :: _ => Some value
  | Plain :: rest => useContext rest
  end.

Inductive outcome (A : Type) : Type :=
| Returns (a : A)
| Throws (message : string).

Definition useWizardContext (ancestors : list ancestor)
  : outcome contextValue :=
  match useContext ancestors with
  | None =>
      Throws _ "useWizardContext must be used within a Wizard component"
  | Some context => Returns _ context
  end.

(** The scopes an element of the wizard puts around its step-view. *)
Definition scopes_of (e : element) : list ancestor :=
  match e with
  | NotFound _ _ => []
  | Provided value _ _ _ => [WizardProvider value]
  end.

End Model.

Arguments object : clear implicits.
Arguments props : clear implicits.
Arguments wizard : clear implicits.
Arguments output : clear implicits.
Arguments action : clear implicits.
Arguments contextValue : clear implicits.
Arguments stepProps : clear implicits.
Arguments element : clear implicits.
Arguments ancestor : clear implicits.
Arguments op : clear implicits.
Arguments Returns {A} a.
Arguments Throws {A} message.

(** ** The wording of the specification

    The two invariants of the data model, and the order in which the keys
    of the step table were defined. *)

Section Wording.

Context {V C : Type} `{EqDecision V}.

Definition step_is_key (p : props V C) (w : wizard V) : Prop :=
  ∃ s, step w = Some s ∧ s ∈ (stepMapping p).*1.

Definition index_in_range (p : props V C) (w : wizard V) : Prop :=
  0 ≤ stepIndex p w < totalSteps p w.

Definition defined_keys (p : props V C) : list string := (stepMapping p).*1.

(** The binding of [initialData] in the latest render is the caller's
    object, or an empty record when the prop is omitted. *)
Definition initialData_bound (p : props V C) (w : wizard V) : Prop :=
  (∀ o, initialData p = Some o → initialData_now w = o)
  ∧ (initialData p = None → fields (initialData_now w) = ∅).

(** The key defined right after [s]. *)
Fixpoint next_defined (ks : list string) (s : string) : option string :=
  match ks with
  | [] => None
  | k :: rest =>
      if decide (k = s) then head rest else next_defined rest s
  end.

(** "Whenever the current step is not the last key, nextStep advances to
    the next key in definition order". *)
Definition advances_in_definition_order (p : props V C) (has_window : bool)
  (w : wizard V) : Prop :=
  ∀ s, step w = Some s → last (defined_keys p) ≠ Some s →
    step (dispatch p has_window w NextStep).1 = next_defined (defined_keys p) s.

(** "The initial step equals the first key in definition order". *)
Definition starts_at_first_defined (p : props V C) (has_window : bool)
  : Prop :=
  step (mount p has_window).1 = head (defined_keys p).

(** "resetData resets step to the first key of StepMapping", the table
    being read in the order in which its keys were defined. *)
Definition resets_to_first_defined (p : props V C) (has_window : bool)
  (w : wizard V) (partial : option (object V)) : Prop :=
  step (dispatch p has_window w (ResetData partial)).1
  = head (defined_keys p).

(** "No notification is emitted when no step transition occurs". *)
Definition silent_without_transition (p : props V C) (has_window : bool)
  (w : wizard V) (o : op V) : Prop :=
  step (dispatch p has_window w o).1 = step w →
  ∀ s i, WindowEvent "wizard:step-change" s i
           ∉ (dispatch p has_window w o).2.

End Wording.

(** ** Vocabulary of the further properties *)

Section Vocabulary.

Context {V C : Type} `{EqDecision V}.

(** The three operations that only move the step. *)
Definition is_navigation (o : op V) : bool :=
  match o with
  | NextStep | PrevStep | ToStep _ => true
  | UpdateData _ | ResetData _ => false
  end.

(** An object the embedding application allocated. *)
Definition from_caller (o : object V) : Prop := ∃ n, ref_of o = Caller n.

(** The objects the application hands to the wizard, through the prop
    [initialData] and through the argument of [resetData], are its own. *)
Definition caller_objects (p : props V C) (os : list (op V)) : Prop :=
  (∀ o, initialData p = Some o → from_caller o)
  ∧ Forall (λ o, ∀ d, o = ResetData (Some d) → from_caller d) os.

(** An object that exists when the allocation counter is [n]. *)
Definition known (n : nat) (o : object V) : Prop :=
  ∀ k, ref_of o = Own k → (k < n)%nat.

(** Everything the latest render refers to was allocated before the next
    allocation. *)
Definition allocated (w : wizard V) : Prop :=
  (∃ k, steps_ref w = Own k ∧ (k < next_ref w)%nat)
  ∧ known (next_ref w) (data w)
  ∧ known (next_ref w) (initialData_now w).


End Vocabulary.

(** ** Sample wizards *)

Definition abc : JS.object_of string :=
  [("a", "StepA"); ("b", "StepB"); ("c", "StepC")]%string.

Definition tracked_abc : props Z string :=
  Props abc None (Some true) false None.

Definition plain_abc : props Z string :=
  Props abc None None true None.

Definition no_steps : props Z string :=
  Props [] None None false None.

Definition b_0_c : props Z string :=
  Props [("b", "StepB"); ("0", "Step0"); ("c", "StepC")]%string
    None None false None.

Definition record_x1 : object Z := Obj (Caller 0) {[ "x"%string := 1 ]}.
Definition record_x9 : object Z := Obj (Caller 1) {[ "x"%string := 9 ]}.

Definition seeded_abc : props Z string :=
  Props abc (Some record_x1) None true None.

(** * Properties *)

(** Closes a decidable goal on concrete data by evaluation. *)
Ltac by_decide :=
  match goal with
  | |- ?P => apply (bool_decide_unpack P); vm_compute; exact I
  end.

(** ** JavaScript arrays and [Object.keys] *)

Example own_keys_names : JS.own_keys abc = ["a"; "b"; "c"]%string.
Proof. reflexivity. Qed.

Example own_keys_mixed :
  JS.own_keys [("b"%string, 1%nat); ("10"%string, 2%nat); ("2"%string, 3%nat);
               ("01"%string, 4%nat); ("c"%string, 5%nat)]
  = ["2"%string; "10"%string; "b"%string; "01"%string; "c"%string].
Proof. vm_compute. reflexivity. Qed.

Module JSFacts.

Lemma includes_elem (a : list string) (s : string) :
  JS.includes a s = true ↔ s ∈ a.
Proof.
  induction a as [|x a IH]; simpl.
  - split; [discriminate | intros Hin; inversion Hin].
  - case_decide as Hx.
    + subst x. split; [intros _; left | reflexivity].
    + rewrite IH. split; [intros Hin; by right |].
      intros Hin. apply elem_of_cons in Hin as [Heq | Hin]; [congruence | done].
Qed.


Lemma index_from_absent (a : list string) (s : string) (i : Z) :
  s ∉ a → JS.index_from a s i = -1.
Proof.
  revert i. induction a as [|x a IH]; intros i Hnot; simpl; [reflexivity |].
  apply not_elem_of_cons in Hnot as [Hne Hnot].
  case_decide; [congruence | by apply IH].
Qed.

Lemma index_from_found (a : list string) (s : string) (i : Z) :
  s ∈ a →
  ∃ k : nat, a !! k = Some s ∧ JS.index_from a s i = i + Z.of_nat k.
Proof.
  revert i. induction a as [|x a IH]; intros i Hin; [inversion Hin |].
  simpl. case_decide as Hx.
  - exists 0%nat. subst x. split; [reflexivity | lia].
  - apply elem_of_cons in Hin as [Heq | Hin]; [congruence |].
    destruct (IH (i + 1) Hin) as (k & Hk & Hidx).
    exists (S k). split; [exact Hk | lia].
Qed.

Lemma index_from_nodup (a : list string) (s : string) (i : Z) (k : nat) :
  NoDup a → a !! k = Some s → JS.index_from a s i = i + Z.of_nat k.
Proof.
  intros Hnd. revert i k.
  induction Hnd as [|x a Hx Hnd IH]; intros i k Hk; [done |].
  simpl. destruct k as [|k]; simpl in Hk.
  - injection Hk as ->. case_decide; [lia | congruence].
  - case_decide as Heq.
    + subst x. exfalso. apply Hx. by eapply list_elem_of_lookup_2.
    + rewrite (IH (i + 1) k Hk). lia.
Qed.

Lemma indexOf_nodup (a : list string) (s : string) (k : nat) :
  NoDup a → a !! k = Some s → JS.indexOf a (Some s) = Z.of_nat k.
Proof. intros Hnd Hk. simpl. by rewrite (index_from_nodup a s 0 k). Qed.

Lemma indexOf_range (a : list string) (s : string) :
  s ∈ a → 0 ≤ JS.indexOf a (Some s) < JS.length a.
Proof.
  intros Hin. destruct (index_from_found a s 0 Hin) as (k & Hk & Hidx).
  simpl. rewrite Hidx. apply lookup_lt_Some in Hk.
  unfold JS.length. lia.
Qed.

Lemma indexOf_absent (a : list string) (s : string) :
  s ∉ a → JS.indexOf a (Some s) = -1.
Proof. apply index_from_absent. Qed.

Lemma at_index_nat (a : list string) (k : nat) :
  JS.at_index a (Z.of_nat k) = a !! k.
Proof.
  unfold JS.at_index. destruct (Z.ltb_spec (Z.of_nat k) 0); [lia |].
  by rewrite Nat2Z.id.
Qed.

Lemma at_index_elem (a : list string) (i : Z) (s : string) :
  JS.at_index a i = Some s → s ∈ a.
Proof.
  unfold JS.at_index. destruct (i <? 0); [discriminate |].
  apply list_elem_of_lookup_2.
Qed.

Lemma at_index_in_range (a : list string) (i : Z) :
  0 ≤ i < JS.length a → ∃ s, JS.at_index a i = Some s.
Proof.
  unfold JS.length, JS.at_index. intros Hi.
  destruct (Z.ltb_spec i 0); [lia |].
  apply lookup_lt_is_Some. lia.
Qed.

Lemma at_index_0 (a : list string) : JS.at_index a 0 = head a.
Proof. by destruct a. Qed.

Lemma indexOf_head (a : list string) (s : string) :
  head a = Some s → JS.indexOf a (Some s) = 0.
Proof.
  destruct a as [|x a]; [discriminate |]. intros [= ->].
  simpl. by case_decide.
Qed.

(** [Object.keys] lists every own key once. *)

Lemma insert_index_perm (k : N * string) (l : list (N * string)) :
  JS.insert_index k l ≡ₚ k :: l.
Proof.
  induction l as [|h t IH]; simpl; [reflexivity |].
  destruct (k.1 <=? h.1)%N; [reflexivity |].
  rewrite IH. apply Permutation_swap.
Qed.

Lemma sort_index_perm (l : list (N * string)) : JS.sort_index l ≡ₚ l.
Proof.
  induction l as [|k l IH]; simpl; [reflexivity |].
  rewrite insert_index_perm. by rewrite IH.
Qed.

Lemma split_keys_perm (ks : list string) :
  (JS.index_keys ks).*2 ++ JS.name_keys ks ≡ₚ ks.
Proof.
  induction ks as [|k ks IH]; simpl; [reflexivity |].
  unfold JS.is_array_index. destruct (JS.array_index k); simpl.
  - by rewrite IH.
  - rewrite <- Permutation_middle. by rewrite IH.
Qed.

Lemma own_keys_perm {A} (o : JS.object_of A) : JS.own_keys o ≡ₚ o.*1.
Proof.
  unfold JS.own_keys. rewrite sort_index_perm. apply split_keys_perm.
Qed.

Lemma own_keys_elem {A} (o : JS.object_of A) (s : string) :
  s ∈ JS.own_keys o ↔ s ∈ o.*1.
Proof. by rewrite own_keys_perm. Qed.

Lemma own_keys_nodup {A} (o : JS.object_of A) :
  JS.well_formed o → NoDup (JS.own_keys o).
Proof. unfold JS.well_formed. by rewrite own_keys_perm. Qed.

Lemma own_keys_length {A} (o : JS.object_of A) :
  List.length (JS.own_keys o) = List.length o.
Proof. rewrite own_keys_perm. apply length_fmap. Qed.

Lemma own_keys_nonempty {A} (o : JS.object_of A) :
  o ≠ [] → ∃ s, head (JS.own_keys o) = Some s.
Proof.
  intros Hne. pose proof (own_keys_length o) as Hlen.
  destruct (JS.own_keys o) as [|s l]; [| by eexists].
  destruct o; [done | discriminate].
Qed.

(** Without array-index keys the enumeration is the creation order. *)
Lemma name_keys_only (ks : list string) :
  Forall (λ k, JS.array_index k = None) ks →
  JS.index_keys ks = [] ∧ JS.name_keys ks = ks.
Proof.
  induction 1 as [|k ks Hk _ [IH1 IH2]]; simpl; [done |].
  unfold JS.is_array_index. rewrite Hk. by rewrite IH1, IH2.
Qed.

Lemma own_keys_definition_order {A} (o : JS.object_of A) :
  Forall (λ k, JS.array_index k = None) (o.*1) → JS.own_keys o = o.*1.
Proof.
  intros Hk. unfold JS.own_keys.
  destruct (name_keys_only _ Hk) as [-> ->]. reflexivity.
Qed.

End JSFacts.

(** ** The wizard *)

Section WizardFacts.

Context {V C : Type} `{EqDecision V}.
Variable p : props V C.
Variable has_window : bool.

Local Abbreviation steps := (steps p).
Local Abbreviation commit := (commit p has_window).

(** *** Rendering *)

Lemma render_body_step s d n : step (render_body p s d n) = s.
Proof. unfold render_body, bind_initialData. by destruct (initialData p). Qed.

Lemma render_body_data s d n : data (render_body p s (Some d) n) = d.
Proof. unfold render_body, bind_initialData. by destruct (initialData p). Qed.

Lemma render_body_initialData s d n o :
  initialData p = Some o → initialData_now (render_body p s d n) = o.
Proof. unfold render_body, bind_initialData. by intros ->. Qed.

Lemma render_body_default s d n :
  initialData p = None →
  fields (initialData_now (render_body p s d n)) = ∅.
Proof. unfold render_body, bind_initialData. by intros ->. Qed.

Lemma render_body_first s n :
  data (render_body p s None n) = initialData_now (render_body p s None n).
Proof. unfold render_body, bind_initialData. by destruct (initialData p). Qed.

(** *** The callback *)

Lemma reduce_call s d i s0 d0 n :
  reduce (call_onStepChange p s d i) s0 d0 n = (s0, d0, n).
Proof. unfold call_onStepChange. by destruct (onStepChange p). Qed.

Lemma calls_call s d i :
  calls (call_onStepChange p s d i)
  = if onStepChange p then [OnStepChange s d i] else [].
Proof. unfold call_onStepChange. by destruct (onStepChange p). Qed.

Lemma call_not_set s d i x : SetStep x ∉ call_onStepChange p s d i.
Proof.
  unfold call_onStepChange. destruct (onStepChange p); intros Hin.
  - apply list_elem_of_singleton in Hin. discriminate.
  - inversion Hin.
Qed.

(** *** Committing *)

Lemma commit_nil w : commit w [] = (w, []).
Proof.
  unfold commit, same_state. simpl.
  rewrite !bool_decide_eq_true_2 by reflexivity. simpl. by destruct w.
Qed.

Lemma commit_state w acts :
  step (commit w acts).1 = (reduce acts (step w) (data w) (next_ref w)).1.1
  ∧ data (commit w acts).1 = (reduce acts (step w) (data w) (next_ref w)).1.2.
Proof.
  unfold commit.
  destruct (reduce acts (step w) (data w) (next_ref w)) as [[s d] n] eqn:E.
  simpl. unfold same_state.
  destruct (bool_decide_reflect (s = step w)) as [-> |];
    destruct (bool_decide_reflect (d = data w)) as [-> |]; simpl;
    by rewrite ?render_body_step, ?render_body_data.
Qed.

Lemma commit_calls w acts :
  ∃ events, (commit w acts).2 = calls acts ++ events
    ∧ ∀ o, o ∈ events → ∃ s i, o = WindowEvent "wizard:step-change" s i.
Proof.
  unfold commit.
  destruct (reduce acts (step w) (data w) (next_ref w)) as [[s d] n].
  destruct (same_state w s d); simpl.
  - exists []. rewrite app_nil_r. split; [done | intros o Ho; inversion Ho].
  - eexists. split; [reflexivity |]. intros o.
    unfold run_effect, step_change_effect.
    destruct (same_deps _ _), (tracking p && has_window);
      intros Ho; try by inversion Ho.
    apply list_elem_of_singleton in Ho. eauto.
Qed.

(** A handler that sets the step to another value: the component renders
    again and the effect runs. *)
Lemma commit_step_changes w s cb_s cb_d cb_i :
  s ≠ step w →
  commit w (SetStep s :: call_onStepChange p cb_s cb_d cb_i)
  = (render_body p s (Some (data w)) (next_ref w),
     (if onStepChange p then [OnStepChange cb_s cb_d cb_i] else [])
       ++ step_change_effect p has_window
            (render_body p s (Some (data w)) (next_ref w))).
Proof.
  intros Hne. unfold commit. simpl. rewrite reduce_call.
  unfold same_state. rewrite (bool_decide_eq_false_2 (s = step w)) by done.
  simpl. rewrite calls_call. do 2 f_equal.
  unfold run_effect, same_deps, deps_of. simpl.
  rewrite render_body_step.
  by rewrite (bool_decide_eq_false_2 (step w = s)).
Qed.

(** A handler that sets the step to the value it has: React bails out. *)
Lemma commit_step_same w cb_s cb_d cb_i :
  commit w (SetStep (step w) :: call_onStepChange p cb_s cb_d cb_i)
  = (w, if onStepChange p then [OnStepChange cb_s cb_d cb_i] else []).
Proof.
  unfold commit. simpl. rewrite reduce_call. unfold same_state.
  rewrite !bool_decide_eq_true_2 by reflexivity. simpl.
  rewrite calls_call. by destruct w.
Qed.

Lemma dispatch_commit w o :
  dispatch p has_window w o = commit w (invoke p w o).
Proof. unfold dispatch, handle. simpl. by rewrite app_nil_r. Qed.

(** *** Navigation at and inside the bounds *)

Lemma nextStep_inside w (i : nat) s s' :
  NoDup steps → steps !! i = Some s → steps !! S i = Some s' →
  step w = Some s →
  nextStep p w
  = SetStep (Some s')
      :: call_onStepChange p (Some s') (data w) (Z.of_nat (S i)).
Proof.
  intros Hnd Hi Hi' Hs. unfold nextStep. rewrite Hs.
  rewrite (JSFacts.indexOf_nodup _ _ _ Hnd Hi).
  replace (Z.of_nat i + 1) with (Z.of_nat (S i)) by lia.
  apply lookup_lt_Some in Hi' as Hlt.
  destruct (Z.ltb_spec (Z.of_nat (S i)) (JS.length steps)) as [_ | Hge];
    [| unfold JS.length in Hge; lia].
  by rewrite JSFacts.at_index_nat, Hi'.
Qed.

Lemma nextStep_last w s :
  NoDup steps → last steps = Some s → step w = Some s → nextStep p w = [].
Proof.
  intros Hnd Hlast Hs. unfold nextStep. rewrite Hs.
  rewrite last_lookup in Hlast.
  rewrite (JSFacts.indexOf_nodup _ _ _ Hnd Hlast).
  apply lookup_lt_Some in Hlast as Hlt.
  destruct (Z.ltb_spec (Z.of_nat (pred (List.length steps)) + 1)
              (JS.length steps)) as [Hlt' | _]; [| reflexivity].
  unfold JS.length in Hlt'. lia.
Qed.



Lemma toStep_known w stepId :
  stepId ∈ steps →
  toStep p w stepId
  = SetStep (Some stepId)
      :: call_onStepChange p (Some stepId) (data w)
           (JS.indexOf steps (Some stepId)).
Proof.
  intros Hin. unfold toStep.
  apply JSFacts.includes_elem in Hin. by rewrite Hin.
Qed.

End WizardFacts.

(** ** The step is always a key of the table *)

Section Invariant.

Context {V C : Type} `{EqDecision V}.
Variable p : props V C.
Variable has_window : bool.

Lemma indexOf_bounds (a : list string) (x : option string) :
  -1 ≤ JS.indexOf a x < JS.length a.
Proof.
  destruct x as [s|]; [| unfold JS.length; simpl; lia].
  destruct (decide (s ∈ a)) as [Hin | Hnot].
  - pose proof (JSFacts.indexOf_range a s Hin). lia.
  - rewrite (JSFacts.indexOf_absent a s Hnot). unfold JS.length. lia.
Qed.

(** Every step an operation asks for is a key, as soon as there is one. *)
Lemma invoke_sets_key (w : wizard V) (o : op V) (x : option string) :
  stepMapping p ≠ [] →
  SetStep x ∈ invoke p w o → ∃ s, x = Some s ∧ s ∈ steps p.
Proof.
  intros Hne Hin.
  pose proof (indexOf_bounds (steps p) (step w)) as Hidx.
  destruct o as [| | stepId | newData | newData]; simpl in Hin.
  - unfold nextStep in Hin.
    destruct (Z.ltb_spec (JS.indexOf (steps p) (step w) + 1)
                (JS.length (steps p))) as [Hlt |]; [| inversion Hin].
    apply elem_of_cons in Hin as [[= ->] | Hin];
      [| by apply call_not_set in Hin].
    destruct (JSFacts.at_index_in_range (steps p)
                (JS.indexOf (steps p) (step w) + 1)) as [s Hs]; [lia |].
    exists s. split; [done | by eapply JSFacts.at_index_elem].
  - unfold prevStep in Hin.
    destruct (Z.geb_spec (JS.indexOf (steps p) (step w) - 1) 0)
      as [Hge |]; [| inversion Hin].
    apply elem_of_cons in Hin as [[= ->] | Hin];
      [| by apply call_not_set in Hin].
    destruct (JSFacts.at_index_in_range (steps p)
                (JS.indexOf (steps p) (step w) - 1)) as [s Hs]; [lia |].
    exists s. split; [done | by eapply JSFacts.at_index_elem].
  - unfold toStep in Hin.
    destruct (JS.includes (steps p) stepId) eqn:E; [| inversion Hin].
    apply elem_of_cons in Hin as [[= ->] | Hin];
      [| by apply call_not_set in Hin].
    exists stepId. split; [done | by apply JSFacts.includes_elem].
  - unfold updateData in Hin. apply list_elem_of_singleton in Hin.
    discriminate.
  - unfold resetData in Hin.
    apply elem_of_cons in Hin as [[=] | Hin].
    apply elem_of_cons in Hin as [[= ->] | Hin];
      [| by apply call_not_set in Hin].
    destruct (JSFacts.own_keys_nonempty (stepMapping p) Hne) as [s Hs].
    exists s. rewrite JSFacts.at_index_0. split; [done |].
    unfold steps. destruct (JS.own_keys (stepMapping p)); [done |].
    injection Hs as ->. left.
Qed.

(** The step a handler leaves is the old one or one it asked for. *)
Lemma reduce_step (acts : list (action V)) s d n :
  (reduce acts s d n).1.1 = s ∨ SetStep (reduce acts s d n).1.1 ∈ acts.
Proof.
  revert s d n. induction acts as [|a acts IH]; intros s d n; [by left |].
  destruct a as [s' | d' | f | o]; simpl.
  - destruct (IH s' d n) as [-> | Hin]; right; [left | by right].
  - destruct (IH s d' n) as [-> | Hin]; [by left | right; by right].
  - destruct (IH s (Obj (Own n) (f d)) (S n)) as [-> | Hin];
      [by left | right; by right].
  - destruct (IH s d n) as [-> | Hin]; [by left | right; by right].
Qed.

Lemma handle_keeps_key (w : wizard V) (ops : list (op V)) :
  stepMapping p ≠ [] →
  step_is_key p w → step_is_key p (handle p has_window w ops).1.
Proof.
  intros Hne Hw. unfold handle, step_is_key.
  destruct (commit_state p has_window w (concat (invoke p w <$> ops)))
    as [-> _].
  destruct (reduce_step (concat (invoke p w <$> ops))
              (step w) (data w) (next_ref w)) as [-> | Hin]; [exact Hw |].
  apply list_elem_of_In, in_concat in Hin as (acts & Hacts & Hin).
  apply list_elem_of_In in Hacts, Hin.
  apply list_elem_of_fmap in Hacts as (o & -> & _).
  destruct (invoke_sets_key w o _ Hne Hin) as (s & -> & Hs).
  exists s. split; [done | by apply JSFacts.own_keys_elem].
Qed.

Lemma mount_has_key :
  stepMapping p ≠ [] → step_is_key p (mount p has_window).1.
Proof.
  intros Hne. unfold mount, step_is_key. simpl. rewrite render_body_step.
  destruct (JSFacts.own_keys_nonempty (stepMapping p) Hne) as [s Hs].
  exists s. rewrite JSFacts.at_index_0. split; [done |].
  apply JSFacts.own_keys_elem. fold (steps p).
  unfold steps in *. destruct (JS.own_keys (stepMapping p)); [done |].
  injection Hs as ->. left.
Qed.

Lemma run_keeps_key (w : wizard V) (os : list (op V)) :
  stepMapping p ≠ [] →
  step_is_key p w → step_is_key p (run p has_window w os).1.
Proof.
  intros Hne. revert w. induction os as [|o os IH]; intros w Hw; [done |].
  simpl.
  pose proof (handle_keeps_key w [o] Hne Hw) as Hstep.
  fold (dispatch p has_window w o) in Hstep.
  destruct (dispatch p has_window w o) as [w1 out1].
  specialize (IH w1 Hstep).
  by destruct (run p has_window w1 os) as [w2 out2].
Qed.

Lemma key_index_in_range (w : wizard V) :
  step_is_key p w → index_in_range p w.
Proof.
  intros (s & Hs & Hin). unfold index_in_range, stepIndex, totalSteps.
  simpl. rewrite Hs. apply JSFacts.indexOf_range.
  by apply JSFacts.own_keys_elem.
Qed.

(** C3, as amended: for every wizard whose StepMapping has at least one
    key, in the initial state and after any sequence of operations
    (nextStep, prevStep, toStep, updateData, resetData), the current step is
    a member of the keys of StepMapping and the derived stepIndex lies in
    the half-open range from 0 to totalSteps. *)
Theorem step_stays_a_key (os : list (op V)) :
  stepMapping p ≠ [] →
  step_is_key p (run p has_window (mount p has_window).1 os).1
  ∧ index_in_range p (run p has_window (mount p has_window).1 os).1.
Proof.
  intros Hne.
  pose proof (run_keeps_key _ os Hne (mount_has_key Hne)) as Hkey.
  split; [exact Hkey | by apply key_index_in_range].
Qed.

End Invariant.

(** The claim C3 without the condition on StepMapping fails on the wizard
    without steps: its step is [undefined], its index -1, out of 0 steps. *)
Lemma no_steps_breaks_invariants :
  ¬ (step_is_key no_steps (mount no_steps true).1
     ∧ index_in_range no_steps (mount no_steps true).1).
Proof.
  intros [_ Hrange]. unfold index_in_range in Hrange.
  vm_compute in Hrange. destruct Hrange as [Hlow _]. by apply Hlow.
Qed.

Lemma step_stays_a_key_witness :
  stepMapping plain_abc ≠ []
  ∧ step_is_key plain_abc
    (run plain_abc true (mount plain_abc true).1
       [NextStep; ToStep "c"%string; PrevStep; ResetData None]).1
  ∧ index_in_range plain_abc
      (run plain_abc true (mount plain_abc true).1
         [NextStep; ToStep "c"%string; PrevStep; ResetData None]).1.
Proof.
  assert (Hne : stepMapping plain_abc ≠ []) by discriminate.
  split; [exact Hne |].
  exact (step_stays_a_key plain_abc true
           [NextStep; ToStep "c"%string; PrevStep; ResetData None] Hne).
Defined.

(** ** Navigation *)

Section Navigation.

Context {V C : Type} `{EqDecision V}.
Variable p : props V C.
Variable has_window : bool.

Lemma steps_nodup : JS.well_formed (stepMapping p) → NoDup (steps p).
Proof. apply JSFacts.own_keys_nodup. Qed.

Lemma key_is_step (s : string) : s ∈ (stepMapping p).*1 ↔ s ∈ steps p.
Proof. symmetry. apply JSFacts.own_keys_elem. Qed.

(** The events of a render that follows a change of step. *)
Lemma step_change_effect_at s d n (i : nat) :
  NoDup (steps p) → steps p !! i = Some s →
  step_change_effect p has_window (render_body p (Some s) d n)
  = if tracking p && has_window
    then [WindowEvent "wizard:step-change" (Some s) (Z.of_nat i)]
    else [].
Proof.
  intros Hnd Hi. unfold step_change_effect. rewrite render_body_step.
  by rewrite (JSFacts.indexOf_nodup _ _ _ Hnd Hi).
Qed.

Lemma dispatch_nextStep_inside (w : wizard V) (i : nat) s s' :
  NoDup (steps p) → steps p !! i = Some s → steps p !! S i = Some s' →
  step w = Some s →
  dispatch p has_window w NextStep
  = (render_body p (Some s') (Some (data w)) (next_ref w),
     (if onStepChange p
      then [OnStepChange (Some s') (data w) (Z.of_nat (S i))] else [])
     ++ (if tracking p && has_window
         then [WindowEvent "wizard:step-change" (Some s') (Z.of_nat (S i))]
         else [])).
Proof.
  intros Hnd Hi Hi' Hs. rewrite dispatch_commit. simpl.
  rewrite (nextStep_inside p w i s s' Hnd Hi Hi' Hs).
  rewrite commit_step_changes.
  - by rewrite (step_change_effect_at _ _ _ (S i) Hnd Hi').
  - rewrite Hs. intros [= ->].
    pose proof (NoDup_lookup _ _ _ _ Hnd Hi Hi'). lia.
Qed.

Lemma dispatch_prevStep_inside (w : wizard V) (i : nat) s s' :
  NoDup (steps p) → steps p !! i = Some s' → steps p !! S i = Some s →
  step w = Some s →
  dispatch p has_window w PrevStep
  = (render_body p (Some s') (Some (data w)) (next_ref w),
     (if onStepChange p
      then [OnStepChange (Some s') (data w) (Z.of_nat i)] else [])
     ++ (if tracking p && has_window
         then [WindowEvent "wizard:step-change" (Some s') (Z.of_nat i)]
         else [])).
Proof.
  intros Hnd Hi Hi' Hs. rewrite dispatch_commit. simpl.
  unfold prevStep. rewrite Hs.
  rewrite (JSFacts.indexOf_nodup _ _ _ Hnd Hi').
  replace (Z.of_nat (S i) - 1) with (Z.of_nat i) by lia.
  destruct (Z.geb_spec (Z.of_nat i) 0) as [_ |]; [| lia].
  rewrite JSFacts.at_index_nat, Hi.
  rewrite commit_step_changes.
  - by rewrite (step_change_effect_at _ _ _ i Hnd Hi).
  - rewrite Hs. intros [= ->].
    pose proof (NoDup_lookup _ _ _ _ Hnd Hi Hi'). lia.
Qed.

Lemma dispatch_toStep_other (w : wizard V) (i : nat) stepId :
  NoDup (steps p) → steps p !! i = Some stepId → step w ≠ Some stepId →
  dispatch p has_window w (ToStep stepId)
  = (render_body p (Some stepId) (Some (data w)) (next_ref w),
     (if onStepChange p
      then [OnStepChange (Some stepId) (data w) (Z.of_nat i)] else [])
     ++ (if tracking p && has_window
         then [WindowEvent "wizard:step-change" (Some stepId) (Z.of_nat i)]
         else [])).
Proof.
  intros Hnd Hi Hne. rewrite dispatch_commit. simpl.
  rewrite toStep_known by (by eapply list_elem_of_lookup_2).
  rewrite (JSFacts.indexOf_nodup _ _ _ Hnd Hi).
  rewrite commit_step_changes by congruence.
  by rewrite (step_change_effect_at _ _ _ i Hnd Hi).
Qed.


(** C10: toStep with the id of the current step passes the membership
    guard: onStepChange, when supplied, is called with the unchanged step
    id, the current data record and the unchanged step index, and the
    wizard state stays as it was. *)
Theorem toStep_current_calls_back (w : wizard V) (stepId : string) :
  step w = Some stepId → stepId ∈ (stepMapping p).*1 →
  dispatch p has_window w (ToStep stepId)
  = (w, if onStepChange p
        then [OnStepChange (Some stepId) (data w) (stepIndex p w)]
        else []).
Proof.
  intros Hs Hin. rewrite dispatch_commit. simpl.
  rewrite toStep_known by (by rewrite <- key_is_step).
  rewrite <- Hs. rewrite commit_step_same. reflexivity.
Qed.

End Navigation.

(** ** Sequences of events *)

Section Sequences.

Context {V C : Type} `{EqDecision V}.
Variable p : props V C.
Variable has_window : bool.

Lemma run_cons_state (w : wizard V) (o : op V) (os : list (op V)) :
  (run p has_window w (o :: os)).1
  = (run p has_window (dispatch p has_window w o).1 os).1.
Proof.
  cbn [run]. destruct (dispatch p has_window w o) as [w1 out1]. cbn [fst].
  by destruct (run p has_window w1 os) as [w2 out2].
Qed.

Lemma run_app_state (w : wizard V) (os os' : list (op V)) :
  (run p has_window w (os ++ os')).1
  = (run p has_window (run p has_window w os).1 os').1.
Proof.
  revert w. induction os as [|o os IH]; intros w; [done |].
  rewrite <- app_comm_cons. by rewrite !run_cons_state, IH.
Qed.

Lemma mount_state :
  (mount p has_window).1 = render_body p (head (steps p)) None 0.
Proof. unfold mount. simpl. by rewrite JSFacts.at_index_0. Qed.

Lemma next_defined_lookup (ks : list string) (i : nat) (s : string) :
  NoDup ks → ks !! i = Some s → next_defined ks s = ks !! S i.
Proof.
  intros Hnd. revert i.
  induction Hnd as [|k ks Hk Hnd IH]; intros i Hi; [done |].
  simpl. destruct i as [|i]; simpl in Hi.
  - injection Hi as ->. case_decide; [| done]. by destruct ks.
  - case_decide as Heq; [| by apply IH].
    subst k. exfalso. apply Hk. by eapply list_elem_of_lookup_2.
Qed.

End Sequences.

(** ** nextStep inside the table, and the initial state *)

Section Advance.

Context {V C : Type} `{EqDecision V}.

Lemma nextStep_general (p : props V C) (has_window : bool) (w : wizard V)
  (i : nat) (s : string) :
  JS.well_formed (stepMapping p) →
  steps p !! i = Some s → step w = Some s →
  (S i < List.length (steps p))%nat →
  ∃ s', steps p !! S i = Some s'
    ∧ (Forall (λ k, JS.array_index k = None) (defined_keys p) →
       next_defined (defined_keys p) s = Some s')
    ∧ step (dispatch p has_window w NextStep).1 = Some s'
    ∧ data (dispatch p has_window w NextStep).1 = data w
    ∧ stepIndex p (dispatch p has_window w NextStep).1 = Z.of_nat (S i)
    ∧ (dispatch p has_window w NextStep).2
      = (if onStepChange p
         then [OnStepChange (Some s') (data w) (Z.of_nat (S i))] else [])
        ++ (if tracking p && has_window
            then [WindowEvent "wizard:step-change" (Some s')
                    (Z.of_nat (S i))]
            else []).
Proof.
  intros Hwf Hi Hs Hlt. pose proof (steps_nodup p Hwf) as Hnd.
  destruct (lookup_lt_is_Some_2 (steps p) (S i) Hlt) as [s' Hi'].
  exists s'. split; [exact Hi' |].
  rewrite (dispatch_nextStep_inside p has_window w i s s' Hnd Hi Hi' Hs).
  simpl. repeat split.
  - intros Hnames. unfold defined_keys in *.
    unfold steps in Hi, Hi'.
    rewrite (JSFacts.own_keys_definition_order _ Hnames) in Hi, Hi'.
    by rewrite (next_defined_lookup _ i s Hwf Hi).
  - apply render_body_step.
  - apply render_body_data.
  - unfold stepIndex. simpl. rewrite render_body_step.
    by apply JSFacts.indexOf_nodup.
Qed.

Lemma three_calls_of_nextStep (A B D : C) (init : option (object V))
  (track : option bool) (cb : bool) (tid : option string)
  (has_window : bool) :
  let p := Props [("a"%string, A); ("b"%string, B); ("c"%string, D)]
             init track cb tid in
  let w2 := (run p has_window (mount p has_window).1 [NextStep; NextStep]).1
  in
  step w2 = Some "c"%string
  ∧ stepIndex p w2 = 2
  ∧ dispatch p has_window w2 NextStep = (w2, [])
  ∧ (run p has_window (mount p has_window).1
       [NextStep; NextStep; NextStep]).1 = w2.
Proof.
  intros p.
  assert (Hsteps : steps p = ["a"; "b"; "c"]%string) by reflexivity.
  assert (Hnd : NoDup (steps p)).
  { rewrite Hsteps.
    apply (bool_decide_unpack (NoDup ["a"; "b"; "c"]%string)).
    vm_compute. exact I. }
  assert (Hlast : ∀ w : wizard V, step w = Some "c"%string →
            dispatch p has_window w NextStep = (w, [])).
  { intros w Hw. rewrite dispatch_commit. simpl.
    rewrite (nextStep_last p w "c" Hnd); [apply commit_nil | | done].
    by rewrite Hsteps. }
  cbv zeta.
  rewrite (run_app_state p has_window _ [NextStep; NextStep] [NextStep]).
  rewrite !run_cons_state. simpl run.
  set (w0 := (mount p has_window).1).
  assert (H0 : step w0 = Some "a"%string).
  { unfold w0. rewrite mount_state, render_body_step. by rewrite Hsteps. }
  rewrite (dispatch_nextStep_inside p has_window w0 0 "a" "b" Hnd)
    by (by rewrite ?Hsteps).
  cbn [fst].
  set (w1 := render_body p (Some "b"%string) (Some (data w0)) (next_ref w0)).
  rewrite (dispatch_nextStep_inside p has_window w1 1 "b" "c" Hnd)
    by (by rewrite ?Hsteps; unfold w1; rewrite ?render_body_step).
  cbn [fst].
  set (w2 := render_body p (Some "c"%string) (Some (data w1)) (next_ref w1)).
  assert (H2 : step w2 = Some "c"%string) by apply render_body_step.
  repeat split.
  - exact H2.
  - unfold stepIndex. simpl. rewrite H2. by rewrite Hsteps.
  - by apply Hlast.
  - by rewrite (Hlast w2 H2).
Qed.

End Advance.

(** Three calls made by one handler all read the step of the render the
    handler belongs to, and the last queued update wins. *)
Example three_calls_in_one_handler :
  step (handle plain_abc true (mount plain_abc true).1
          [NextStep; NextStep; NextStep]).1 = Some "b"%string.
Proof. vm_compute. reflexivity. Qed.

(** C6, as amended: whenever the current step is not the last key,
    nextStep advances the current step to the next key in the order in
    which Object.keys enumerates StepMapping (array-index keys first, in
    ascending numeric order, then the other keys in definition order; this
    is the definition order when no key is an array index), leaves the data
    record as it is and calls onStepChange, when supplied, with the new
    step id, the current data record and the new step index.  For
    StepMapping a, b, c, starting at the first key, three calls of nextStep,
    each made from the render the previous one left, end with step c and
    stepIndex 2, the third call being a no-op. *)
Theorem nextStep_advances {V C : Type} `{EqDecision V} :
  (∀ (p : props V C) (has_window : bool) (w : wizard V) (i : nat)
     (s : string),
     JS.well_formed (stepMapping p) →
     steps p !! i = Some s → step w = Some s →
     (S i < List.length (steps p))%nat →
     ∃ s', steps p !! S i = Some s'
       ∧ (Forall (λ k, JS.array_index k = None) (defined_keys p) →
          next_defined (defined_keys p) s = Some s')
       ∧ step (dispatch p has_window w NextStep).1 = Some s'
       ∧ data (dispatch p has_window w NextStep).1 = data w
       ∧ stepIndex p (dispatch p has_window w NextStep).1 = Z.of_nat (S i)
       ∧ (dispatch p has_window w NextStep).2
         = (if onStepChange p
            then [OnStepChange (Some s') (data w) (Z.of_nat (S i))]
            else [])
           ++ (if tracking p && has_window
               then [WindowEvent "wizard:step-change" (Some s')
                       (Z.of_nat (S i))]
               else []))
  ∧ (∀ (A B D : C) (init : option (object V)) (track : option bool)
       (cb : bool) (tid : option string) (has_window : bool),
       let p := Props [("a"%string, A); ("b"%string, B); ("c"%string, D)]
                  init track cb tid in
       let w2 :=
         (run p has_window (mount p has_window).1 [NextStep; NextStep]).1 in
       step w2 = Some "c"%string
       ∧ stepIndex p w2 = 2
       ∧ dispatch p has_window w2 NextStep = (w2, [])
       ∧ (run p has_window (mount p has_window).1
            [NextStep; NextStep; NextStep]).1 = w2).
Proof.
  split.
  - apply nextStep_general.
  - apply three_calls_of_nextStep.
Qed.

Lemma nextStep_advances_witness :
  JS.well_formed (stepMapping plain_abc)
  ∧ steps plain_abc !! 0%nat = Some "a"%string
  ∧ step (mount plain_abc true).1 = Some "a"%string
  ∧ (1 < List.length (steps plain_abc))%nat
  ∧ ∃ s', steps plain_abc !! 1%nat = Some s'
      ∧ step (dispatch plain_abc true (mount plain_abc true).1 NextStep).1
        = Some s'.
Proof.
  assert (H1 : JS.well_formed (stepMapping plain_abc)) by by_decide.
  assert (H2 : steps plain_abc !! 0%nat = Some "a"%string) by reflexivity.
  assert (H3 : step (mount plain_abc true).1 = Some "a"%string)
    by reflexivity.
  assert (H4 : (1 < List.length (steps plain_abc))%nat)
    by (vm_compute; lia).
  repeat (split; [assumption |]).
  destruct (proj1 nextStep_advances plain_abc true (mount plain_abc true).1
              0%nat "a"%string H1 H2 H3 H4)
    as (s' & Hnext & _ & Hstep & _).
  exists s'. split; assumption.
Defined.

(** The claim C6 with the definition order fails on the table defined as
    b, 0, c: Object.keys enumerates 0, b, c, so that nextStep from b goes to
    c, although 0 is the key defined after b and b is not the last key. *)
Lemma definition_order_not_followed :
  ¬ advances_in_definition_order b_0_c true
      (dispatch b_0_c true (mount b_0_c true).1 NextStep).1.
Proof.
  intros Hclaim.
  specialize (Hclaim "b"%string eq_refl).
  assert (Hlast : last (defined_keys b_0_c) ≠ Some "b"%string)
    by (vm_compute; discriminate).
  specialize (Hclaim Hlast). vm_compute in Hclaim. discriminate.
Qed.


Lemma toStep_current_calls_back_witness :
  step (mount plain_abc true).1 = Some "a"%string
  ∧ "a"%string ∈ (stepMapping plain_abc).*1
  ∧ dispatch plain_abc true (mount plain_abc true).1 (ToStep "a")
    = ((mount plain_abc true).1,
       [OnStepChange (Some "a"%string) (data (mount plain_abc true).1) 0]).
Proof.
  assert (H1 : step (mount plain_abc true).1 = Some "a"%string)
    by reflexivity.
  assert (H2 : "a"%string ∈ (stepMapping plain_abc).*1) by by_decide.
  repeat (split; [assumption |]).
  exact (toStep_current_calls_back plain_abc true (mount plain_abc true).1
           "a"%string H1 H2).
Defined.

(** ** The initial state *)

Section Initial.

Context {V C : Type} `{EqDecision V}.
Variable p : props V C.
Variable has_window : bool.

(** C7, as amended: for every StepMapping with at least one key, the
    initial step is the first key in the order in which Object.keys
    enumerates StepMapping (array-index keys first, in ascending numeric
    order, then the other keys in definition order), which is the first key
    in definition order when no key is an array index; stepIndex is 0; the
    data record is the caller-supplied initialData, and an empty record
    when initialData is omitted. *)
Theorem initial_state :
  stepMapping p ≠ [] →
  step (mount p has_window).1 = head (JS.own_keys (stepMapping p))
  ∧ is_Some (step (mount p has_window).1)
  ∧ (Forall (λ k, JS.array_index k = None) (defined_keys p) →
     step (mount p has_window).1 = head (defined_keys p))
  ∧ stepIndex p (mount p has_window).1 = 0
  ∧ (∀ o, initialData p = Some o → data (mount p has_window).1 = o)
  ∧ (initialData p = None → fields (data (mount p has_window).1) = ∅).
Proof.
  intros Hne. rewrite mount_state.
  destruct (JSFacts.own_keys_nonempty (stepMapping p) Hne) as [s Hs].
  rewrite render_body_step. fold (steps p) in *.
  repeat split.
  - rewrite Hs. by eexists.
  - intros Hnames. unfold steps, defined_keys in *.
    by rewrite (JSFacts.own_keys_definition_order _ Hnames).
  - unfold stepIndex. simpl. rewrite render_body_step, Hs.
    by apply JSFacts.indexOf_head.
  - intros o Ho. rewrite render_body_first.
    by apply render_body_initialData.
  - intros Hnone. rewrite render_body_first.
    by apply render_body_default.
Qed.

End Initial.

Lemma initial_state_witness :
  stepMapping plain_abc ≠ []
  ∧ step (mount plain_abc true).1 = Some "a"%string
  ∧ stepIndex plain_abc (mount plain_abc true).1 = 0
  ∧ fields (data (mount plain_abc true).1) = ∅.
Proof.
  assert (H1 : stepMapping plain_abc ≠ []) by discriminate.
  split; [assumption |].
  destruct (initial_state plain_abc true H1)
    as (Hstep & _ & _ & Hindex & _ & Hdata).
  split; [exact Hstep |]. split; [exact Hindex |].
  apply Hdata. reflexivity.
Defined.

(** The claim C7 with the definition order fails on the table defined as
    b, 0, c: the wizard starts at 0, the first key Object.keys lists. *)
Lemma first_defined_key_not_initial : ¬ starts_at_first_defined b_0_c true.
Proof. unfold starts_at_first_defined. vm_compute. discriminate. Qed.

(** ** The data record *)

Section Data.

Context {V C : Type} `{EqDecision V}.
Variable p : props V C.
Variable has_window : bool.

Lemma render_body_bound s d n : initialData_bound p (render_body p s d n).
Proof.
  split; [intros o Ho; by apply render_body_initialData |].
  apply render_body_default.
Qed.

Lemma commit_bound (w : wizard V) (acts : list (action V)) :
  initialData_bound p w → initialData_bound p (commit p has_window w acts).1.
Proof.
  intros Hw. unfold commit.
  destruct (reduce acts (step w) (data w) (next_ref w)) as [[s d] n].
  destruct (same_state w s d); simpl; [exact Hw | apply render_body_bound].
Qed.

Lemma run_bound (w : wizard V) (os : list (op V)) :
  initialData_bound p w → initialData_bound p (run p has_window w os).1.
Proof.
  revert w. induction os as [|o os IH]; intros w Hw; [done |].
  rewrite run_cons_state. apply IH. rewrite dispatch_commit.
  by apply commit_bound.
Qed.

Lemma reachable_bound (os : list (op V)) :
  initialData_bound p (run p has_window (mount p has_window).1 os).1.
Proof. apply run_bound. rewrite mount_state. apply render_body_bound. Qed.

Lemma resetData_commit (w : wizard V) (partial : option (object V)) :
  step (dispatch p has_window w (ResetData partial)).1 = head (steps p)
  ∧ data (dispatch p has_window w (ResetData partial)).1
    = default (initialData_now w) partial
  ∧ ∃ events,
      (dispatch p has_window w (ResetData partial)).2
      = (if onStepChange p
         then [OnStepChange (head (steps p))
                 (default (initialData_now w) partial) 0]
         else []) ++ events
      ∧ ∀ o, o ∈ events → ∃ s i, o = WindowEvent "wizard:step-change" s i.
Proof.
  rewrite dispatch_commit. simpl. unfold resetData.
  rewrite JSFacts.at_index_0.
  set (acts := SetData _ :: _).
  destruct (commit_state p has_window w acts) as [Hstep Hdata].
  destruct (commit_calls p has_window w acts) as (events & Hout & Hev).
  rewrite Hstep, Hdata, Hout.
  unfold acts. simpl. rewrite reduce_call, calls_call. simpl.
  repeat split. by exists events.
Qed.

(** C4, as amended: resetData(partial) puts partial in the data record
    when it is given; called without argument it puts back the
    caller-supplied initialData, the very object the caller passed (an
    empty record when the prop was omitted), whatever the data record went
    through in between.  It resets the step to the first key in the order
    in which Object.keys enumerates StepMapping (array-index keys first, in
    ascending numeric order, then the other keys in definition order): a
    key of StepMapping, at index 0, as soon as the table has a key, and the
    first key in definition order when no key is an array index.  It calls
    onStepChange, when supplied, with that step, the reset data and
    index 0. *)
Theorem resetData_restores (os : list (op V)) (partial : option (object V)) :
  let w := (run p has_window (mount p has_window).1 os).1 in
  let r := dispatch p has_window w (ResetData partial) in
  (∀ d, partial = Some d → data r.1 = d)
  ∧ (partial = None → ∀ o, initialData p = Some o → data r.1 = o)
  ∧ (partial = None → initialData p = None → fields (data r.1) = ∅)
  ∧ step r.1 = head (JS.own_keys (stepMapping p))
  ∧ (stepMapping p ≠ [] →
     ∃ s, step r.1 = Some s ∧ s ∈ (stepMapping p).*1 ∧ stepIndex p r.1 = 0)
  ∧ (Forall (λ k, JS.array_index k = None) (defined_keys p) →
     step r.1 = head (defined_keys p))
  ∧ ∃ events,
      r.2 = (if onStepChange p
             then [OnStepChange (step r.1) (data r.1) 0] else [])
            ++ events
      ∧ ∀ o, o ∈ events → ∃ s i, o = WindowEvent "wizard:step-change" s i.
Proof.
  intros w r.
  destruct (reachable_bound os) as [Hgiven Hdefault]. fold w in Hgiven, Hdefault.
  destruct (resetData_commit w partial) as (Hstep & Hdata & events & Hout & Hev).
  fold r in Hstep, Hdata, Hout.
  repeat apply conj.
  - intros d ->. by rewrite Hdata.
  - intros -> o Ho. rewrite Hdata. simpl. by apply Hgiven.
  - intros -> Hnone. rewrite Hdata. simpl. by apply Hdefault.
  - exact Hstep.
  - intros Hne.
    destruct (JSFacts.own_keys_nonempty (stepMapping p) Hne) as [s Hs].
    fold (steps p) in Hs. exists s. rewrite Hstep.
    split; [exact Hs |]. split.
    + apply JSFacts.own_keys_elem. fold (steps p).
      destruct (steps p); [discriminate |]. injection Hs as ->. left.
    + unfold stepIndex. cbn [context_value c_stepIndex].
      rewrite Hstep, Hs. by apply JSFacts.indexOf_head.
  - intros Hnames. rewrite Hstep. unfold steps, defined_keys in *.
    by rewrite (JSFacts.own_keys_definition_order _ Hnames).
  - exists events. split; [| exact Hev]. by rewrite Hstep, Hdata.
Qed.

Lemma updateData_lookup (w : wizard V) (partial : object V) (k : string) :
  fields (data (dispatch p has_window w (UpdateData partial)).1) !! k
  = match fields partial !! k with
    | Some v => Some v
    | None => fields (data w) !! k
    end.
Proof.
  rewrite dispatch_commit. simpl. unfold updateData.
  destruct (commit_state p has_window w
              [SetDataWith (λ prev, spread (fields prev) (fields partial))])
    as [_ ->].
  simpl. unfold spread. rewrite lookup_union.
  by destruct (fields partial !! k), (fields (data w) !! k).
Qed.

Lemma updateData_twice_in_one_handler (w : wizard V) (a b : object V)
  (k : string) :
  fields (data (handle p has_window w [UpdateData a; UpdateData b]).1) !! k
  = match fields b !! k with
    | Some v => Some v
    | None =>
        match fields a !! k with
        | Some v => Some v
        | None => fields (data w) !! k
        end
    end.
Proof.
  unfold handle.
  destruct (commit_state p has_window w
              (concat (invoke p w <$> [UpdateData a; UpdateData b])))
    as [_ Hdata].
  rewrite Hdata. simpl. unfold spread. rewrite !lookup_union.
  by destruct (fields b !! k), (fields a !! k), (fields (data w) !! k).
Qed.

(** C5: updateData(partial) shallow-merges partial into the current data
    record: a key of partial takes the value partial gives it, every other
    key keeps the value it had; the step does not change and onStepChange
    is not called.  updateData of a record with a alone followed by
    updateData of a record with b alone leaves a data record with both,
    whether the two calls come from two events or from one handler. *)
Theorem updateData_merges (w : wizard V) (partial : object V) :
  (∀ k, fields (data (dispatch p has_window w (UpdateData partial)).1) !! k
        = match fields partial !! k with
          | Some v => Some v
          | None => fields (data w) !! k
          end)
  ∧ step (dispatch p has_window w (UpdateData partial)).1 = step w
  ∧ (∀ s d i,
       OnStepChange s d i ∉ (dispatch p has_window w (UpdateData partial)).2)
  ∧ (∀ (ra rb : ref) (va vb : V),
       let a := Obj ra {[ "a"%string := va ]} in
       let b := Obj rb {[ "b"%string := vb ]} in
       let two_events :=
         (run p has_window w [UpdateData a; UpdateData b]).1 in
       let one_handler :=
         (handle p has_window w [UpdateData a; UpdateData b]).1 in
       fields (data two_events) !! "a"%string = Some va
       ∧ fields (data two_events) !! "b"%string = Some vb
       ∧ fields (data one_handler) !! "a"%string = Some va
       ∧ fields (data one_handler) !! "b"%string = Some vb).
Proof.
  split; [apply updateData_lookup |]. split; [| split].
  - rewrite dispatch_commit. simpl.
    by destruct (commit_state p has_window w (updateData partial))
      as [-> _].
  - intros s d i. rewrite dispatch_commit. simpl.
    destruct (commit_calls p has_window w (updateData partial))
      as (events & -> & Hev).
    simpl. intros Hin. destruct (Hev _ Hin) as (? & ? & [=]).
  - intros ra rb va vb a b two_events one_handler.
    unfold two_events, one_handler.
    rewrite !run_cons_state. simpl run. cbn [fst].
    rewrite !updateData_lookup, !updateData_twice_in_one_handler.
    unfold a, b. simpl.
    repeat split; by simplify_map_eq.
Qed.

End Data.

Lemma resetData_restores_witness :
  initialData seeded_abc = Some record_x1
  ∧ stepMapping seeded_abc ≠ []
  ∧ data (dispatch seeded_abc true
            (run seeded_abc true (mount seeded_abc true).1
               [UpdateData record_x9; NextStep]).1
            (ResetData None)).1 = record_x1
  ∧ data (dispatch seeded_abc true
            (run seeded_abc true (mount seeded_abc true).1
               [UpdateData record_x9; NextStep]).1
            (ResetData (Some record_x9))).1 = record_x9
  ∧ step (dispatch seeded_abc true
            (run seeded_abc true (mount seeded_abc true).1
               [UpdateData record_x9; NextStep]).1
            (ResetData None)).1 = Some "a"%string
  ∧ ∃ s, step (dispatch seeded_abc true
                 (run seeded_abc true (mount seeded_abc true).1
                    [UpdateData record_x9; NextStep]).1
                 (ResetData None)).1 = Some s
         ∧ s ∈ (stepMapping seeded_abc).*1
         ∧ stepIndex seeded_abc
             (dispatch seeded_abc true
                (run seeded_abc true (mount seeded_abc true).1
                   [UpdateData record_x9; NextStep]).1
                (ResetData None)).1 = 0.
Proof.
  assert (H1 : initialData seeded_abc = Some record_x1) by reflexivity.
  assert (H2 : stepMapping seeded_abc ≠ []) by discriminate.
  repeat (split; [assumption |]).
  destruct (resetData_restores seeded_abc true
              [UpdateData record_x9; NextStep] None)
    as (_ & Hinitial & _ & Hstep & Hkey & _).
  destruct (resetData_restores seeded_abc true
              [UpdateData record_x9; NextStep] (Some record_x9))
    as (Hgiven & _).
  split; [exact (Hinitial eq_refl record_x1 H1) |].
  split; [exact (Hgiven record_x9 eq_refl) |].
  split; [exact Hstep | exact (Hkey H2)].
Defined.

(** The claim C4 with the first key of the table as it was defined fails
    on the table defined as b, 0, c: from step b, resetData goes to 0, the
    first key Object.keys lists, and not to b. *)
Lemma resetData_not_to_first_defined :
  ¬ resets_to_first_defined b_0_c true
      (dispatch b_0_c true (mount b_0_c true).1 NextStep).1 None.
Proof. unfold resets_to_first_defined. vm_compute. discriminate. Qed.

Lemma updateData_merges_witness :
  fields (data (dispatch seeded_abc true (mount seeded_abc true).1
                  (UpdateData record_x9)).1) !! "x"%string = Some 9
  ∧ step (dispatch seeded_abc true (mount seeded_abc true).1
            (UpdateData record_x9)).1 = Some "a"%string.
Proof.
  destruct (updateData_merges seeded_abc true (mount seeded_abc true).1
              record_x9) as (Hmerge & Hstep & _).
  split; [exact (Hmerge "x"%string) | exact Hstep].
Defined.

(** ** Rendering *)

Section Rendering.

Context {V C : Type} `{EqDecision V}.
Variable p : props V C.

Lemma get_prop_key {A} (o : JS.object_of A) (k : string) :
  k ∈ o.*1 → is_Some (JS.get_prop o k).
Proof.
  induction o as [|[k' v] o IH]; simpl; intros Hin; [inversion Hin |].
  case_decide; [by eexists |].
  apply elem_of_cons in Hin as [-> | Hin]; [done | by apply IH].
Qed.

(** With a step that is a key, the step-view is there. *)
Lemma step_view_exists (w : wizard V) :
  step_is_key p w → is_Some (CurrentStepComponent p w).
Proof.
  intros (s & Hs & Hin). unfold CurrentStepComponent. rewrite Hs.
  by apply get_prop_key.
Qed.

Lemma get_prop_absent {A} (o : JS.object_of A) (k : string) :
  k ∉ o.*1 → JS.get_prop o k = None.
Proof.
  induction o as [|[k' v] o IH]; simpl; intros Hnot; [done |].
  apply not_elem_of_cons in Hnot as [Hne Hnot].
  case_decide; [congruence | by apply IH].
Qed.

Lemma get_prop_entry {A} (o : JS.object_of A) (k : string) (v : A) :
  JS.well_formed o → (k, v) ∈ o → JS.get_prop o k = Some v.
Proof.
  unfold JS.well_formed.
  induction o as [|[k' v'] o IH]; simpl; intros Hnd Hin; [inversion Hin |].
  apply NoDup_cons in Hnd as [Hk' Hnd].
  apply elem_of_cons in Hin as [[= -> ->] | Hin].
  - by case_decide.
  - case_decide as Heq; [| by apply IH].
    subst k'. exfalso. apply Hk'.
    apply list_elem_of_fmap. by exists (k, v).
Qed.

(** C9: when StepMapping has no entry under the key of the current step,
    the wizard returns the "Step not found" placeholder, with the test id
    built on the parent test id, instead of a step-view; when StepMapping
    has the entry, it returns the provider around the step-view of that
    entry.  It returns an element in every case, and the placeholder is
    returned for no other reason than the missing entry. *)
Theorem missing_step_view_renders_fallback (w : wizard V) :
  (JS.to_property_key (step w) ∉ (stepMapping p).*1 →
   view p w = NotFound (parentTestId p +:+ "-not-found") "Step not found")
  ∧ (∀ component,
       JS.well_formed (stepMapping p) →
       (JS.to_property_key (step w), component) ∈ stepMapping p →
       view p w
       = Provided (context_value p w) (parentTestId p +:+ "-provider")
           component (step_props p w))
  ∧ (∀ testid text,
       view p w = NotFound testid text →
       JS.to_property_key (step w) ∉ (stepMapping p).*1).
Proof.
  unfold view, CurrentStepComponent. split; [| split].
  - intros Hnot. by rewrite (get_prop_absent _ _ Hnot).
  - intros component Hwf Hin. by rewrite (get_prop_entry _ _ _ Hwf Hin).
  - intros testid text Hview Hin.
    destruct (get_prop_key (stepMapping p) _ Hin) as [component Hc].
    rewrite Hc in Hview. discriminate.
Qed.

End Rendering.

Lemma missing_step_view_renders_fallback_witness :
  (JS.to_property_key (step (mount no_steps true).1)
     ∉ (stepMapping no_steps).*1)
  ∧ JS.well_formed (stepMapping plain_abc)
  ∧ ((JS.to_property_key (step (mount plain_abc true).1), "StepA"%string)
       ∈ stepMapping plain_abc)
  ∧ view no_steps (mount no_steps true).1
    = NotFound "wizard-not-found" "Step not found"
  ∧ view plain_abc (mount plain_abc true).1
    = Provided (context_value plain_abc (mount plain_abc true).1)
        "wizard-provider" "StepA"%string
        (step_props plain_abc (mount plain_abc true).1).
Proof.
  assert (H1 : JS.to_property_key (step (mount no_steps true).1)
                 ∉ (stepMapping no_steps).*1) by by_decide.
  assert (H2 : JS.well_formed (stepMapping plain_abc)) by by_decide.
  assert (H3 : (JS.to_property_key (step (mount plain_abc true).1),
                "StepA"%string) ∈ stepMapping plain_abc) by by_decide.
  repeat (split; [assumption |]).
  split.
  - exact (proj1 (missing_step_view_renders_fallback no_steps
                    (mount no_steps true).1) H1).
  - exact (proj1 (proj2 (missing_step_view_renders_fallback plain_abc
                           (mount plain_abc true).1))
             "StepA"%string H2 H3).
Defined.

(** ** Reading the context *)

Section Context.

Context {V C : Type} `{EqDecision V}.

Lemma useContext_plain (ancestors : list (ancestor V)) :
  Forall (λ a, a = Plain) ancestors → useContext ancestors = None.
Proof. induction 1 as [|a l -> _ IH]; [done | exact IH]. Qed.

Lemma useContext_nearest (inner outer : list (ancestor V)) value :
  Forall (λ a, a = Plain) inner →
  useContext (inner ++ WizardProvider value :: outer) = Some value.
Proof. induction 1 as [|a l -> _ IH]; [done | exact IH]. Qed.

(** C8: useWizardContext called by a component with no wizard scope among
    its ancestors throws at once, with the message of the source; called
    by a component inside a scope it returns the value of that scope, in
    particular the context value of the wizard for every descendant of the
    step-view the wizard renders. *)
Theorem useWizardContext_guard :
  (∀ ancestors : list (ancestor V),
     Forall (λ a, a = Plain) ancestors →
     useWizardContext ancestors
     = Throws "useWizardContext must be used within a Wizard component")
  ∧ (∀ (inner outer : list (ancestor V)) value,
       Forall (λ a, a = Plain) inner →
       useWizardContext (inner ++ WizardProvider value :: outer)
       = Returns value)
  ∧ (∀ (p : props V C) (w : wizard V) (inner outer : list (ancestor V)),
       is_Some (CurrentStepComponent p w) →
       Forall (λ a, a = Plain) inner →
       useWizardContext (inner ++ scopes_of (view p w) ++ outer)
       = Returns (context_value p w)).
Proof.
  split; [| split].
  - intros ancestors Hplain. unfold useWizardContext.
    by rewrite useContext_plain.
  - intros inner outer value Hplain. unfold useWizardContext.
    by rewrite useContext_nearest.
  - intros p w inner outer [component Hc] Hplain.
    unfold useWizardContext, view. rewrite Hc. simpl.
    by rewrite useContext_nearest.
Qed.

End Context.

Lemma useWizardContext_guard_witness :
  Forall (λ a : ancestor Z, a = Plain) [Plain; Plain]
  ∧ is_Some (CurrentStepComponent plain_abc (mount plain_abc true).1)
  ∧ useWizardContext (V := Z) [Plain; Plain]
    = Throws "useWizardContext must be used within a Wizard component"
  ∧ useWizardContext
      ([Plain; Plain] ++ scopes_of (view plain_abc (mount plain_abc true).1)
         ++ [Plain])
    = Returns (context_value plain_abc (mount plain_abc true).1).
Proof.
  assert (H1 : Forall (λ a : ancestor Z, a = Plain) [Plain; Plain])
    by (repeat constructor).
  assert (H2 : is_Some
                 (CurrentStepComponent plain_abc (mount plain_abc true).1))
    by (by eexists).
  repeat (split; [assumption |]).
  destruct (useWizardContext_guard (V := Z) (C := string))
    as (Houtside & _ & Hinside).
  split.
  - exact (Houtside [Plain; Plain] H1).
  - exact (Hinside plain_abc (mount plain_abc true).1 [Plain; Plain] [Plain]
             H2 H1).
Defined.

(** ** The step-change event *)

(** With tracking on, a call that changes the step is followed by exactly
    one event, for the new step. *)
Example tracked_toStep_b :
  (dispatch tracked_abc true (mount tracked_abc true).1 (ToStep "b")).2
  = [WindowEvent "wizard:step-change" (Some "b"%string) 1].
Proof. vm_compute. reflexivity. Qed.

Example tracked_mount :
  (mount tracked_abc true).2
  = [WindowEvent "wizard:step-change" (Some "a"%string) 0].
Proof. vm_compute. reflexivity. Qed.

(** C1, on the failing input: with trackSteps on, updateData of a record
    with x = 1 on the freshly mounted wizard over a, b, c leaves the step
    at a, so that no step transition occurs, and yet one event
    wizard:step-change with step a and stepIndex 0 is dispatched: the data
    record changed, the component rendered again, and the dependency
    [steps] of the effect is a new array in every render. *)
Theorem updateData_emits_step_change :
  step (dispatch tracked_abc true (mount tracked_abc true).1
          (UpdateData record_x1)).1
  = step (mount tracked_abc true).1
  ∧ (dispatch tracked_abc true (mount tracked_abc true).1
       (UpdateData record_x1)).2
    = [WindowEvent "wizard:step-change" (Some "a"%string) 0]
  ∧ ¬ silent_without_transition tracked_abc true (mount tracked_abc true).1
        (UpdateData record_x1).
Proof.
  assert (Hstep : step (dispatch tracked_abc true (mount tracked_abc true).1
                          (UpdateData record_x1)).1
                  = step (mount tracked_abc true).1)
    by (vm_compute; reflexivity).
  assert (Hout : (dispatch tracked_abc true (mount tracked_abc true).1
                    (UpdateData record_x1)).2
                 = [WindowEvent "wizard:step-change" (Some "a"%string) 0])
    by (vm_compute; reflexivity).
  split; [exact Hstep |]. split; [exact Hout |].
  intros Hsilent. apply (Hsilent Hstep (Some "a"%string) 0).
  rewrite Hout. left.
Qed.

(** * Further properties of the operations *)

(** ** Moving back, jumping, and the data record under navigation *)

Section Moves.

Context {V C : Type} `{EqDecision V}.
Variable p : props V C.
Variable has_window : bool.

(** X1: when the current step is not the first key, prevStep moves to the
    key before it in the array of steps, keeps the data record, and calls
    onStepChange, when supplied, with the new step id, the current data
    record and the new index; with tracking on, one event follows. *)
Theorem prevStep_moves_back (w : wizard V) (i : nat) (s s' : string) :
  JS.well_formed (stepMapping p) →
  steps p !! i = Some s' → steps p !! S i = Some s → step w = Some s →
  step (dispatch p has_window w PrevStep).1 = Some s'
  ∧ data (dispatch p has_window w PrevStep).1 = data w
  ∧ stepIndex p (dispatch p has_window w PrevStep).1 = Z.of_nat i
  ∧ (dispatch p has_window w PrevStep).2
    = (if onStepChange p
       then [OnStepChange (Some s') (data w) (Z.of_nat i)] else [])
      ++ (if tracking p && has_window
          then [WindowEvent "wizard:step-change" (Some s') (Z.of_nat i)]
          else []).
Proof.
  intros Hwf Hi Hi' Hs. pose proof (steps_nodup p Hwf) as Hnd.
  rewrite (dispatch_prevStep_inside p has_window w i s s' Hnd Hi Hi' Hs).
  simpl. repeat split.
  - apply render_body_step.
  - apply render_body_data.
  - unfold stepIndex. simpl. rewrite render_body_step.
    by apply JSFacts.indexOf_nodup.
Qed.

(** X2: toStep with a key other than the current step moves to that key,
    whatever its distance, keeps the data record, and calls onStepChange,
    when supplied, with the key, the current data record and the position
    of the key in the array of steps. *)
Theorem toStep_jumps (w : wizard V) (i : nat) (stepId : string) :
  JS.well_formed (stepMapping p) →
  steps p !! i = Some stepId → step w ≠ Some stepId →
  step (dispatch p has_window w (ToStep stepId)).1 = Some stepId
  ∧ data (dispatch p has_window w (ToStep stepId)).1 = data w
  ∧ stepIndex p (dispatch p has_window w (ToStep stepId)).1 = Z.of_nat i
  ∧ (dispatch p has_window w (ToStep stepId)).2
    = (if onStepChange p
       then [OnStepChange (Some stepId) (data w) (Z.of_nat i)] else [])
      ++ (if tracking p && has_window
          then [WindowEvent "wizard:step-change" (Some stepId) (Z.of_nat i)]
          else []).
Proof.
  intros Hwf Hi Hne. pose proof (steps_nodup p Hwf) as Hnd.
  rewrite (dispatch_toStep_other p has_window w i stepId Hnd Hi Hne).
  simpl. repeat split.
  - apply render_body_step.
  - apply render_body_data.
  - unfold stepIndex. simpl. rewrite render_body_step.
    by apply JSFacts.indexOf_nodup.
Qed.

(** Actions that leave the data cell alone. *)
Lemma reduce_without_setData (acts : list (action V)) s d n :
  Forall (λ a, match a with
               | SetData _ | SetDataWith _ => False
               | _ => True
               end) acts →
  (reduce acts s d n).1.2 = d ∧ (reduce acts s d n).2 = n.
Proof.
  intros Hacts. revert s.
  induction Hacts as [|a acts Ha _ IH]; intros s; [done |].
  destruct a; simpl; try done; apply IH.
Qed.

Lemma call_without_setData s d i :
  Forall (λ a : action V, match a with
               | SetData _ | SetDataWith _ => False
               | _ => True
               end) (call_onStepChange p s d i).
Proof.
  unfold call_onStepChange. destruct (onStepChange p); repeat constructor.
Qed.

Lemma navigation_without_setData (w : wizard V) (o : op V) :
  is_navigation o = true →
  Forall (λ a, match a with
               | SetData _ | SetDataWith _ => False
               | _ => True
               end) (invoke p w o).
Proof.
  destruct o as [| | stepId | |]; try discriminate; intros _; simpl.
  - unfold nextStep. destruct (_ <? _); [| constructor].
    constructor; [done | apply call_without_setData].
  - unfold prevStep. destruct (_ >=? _); [| constructor].
    constructor; [done | apply call_without_setData].
  - unfold toStep. destruct (JS.includes _ _); [| constructor].
    constructor; [done | apply call_without_setData].
Qed.

(** X3: an event handler that only calls nextStep, prevStep and toStep, in
    any number and order, leaves the data record the very object it was. *)
Theorem navigation_keeps_data (w : wizard V) (ops : list (op V)) :
  Forall (λ o, is_navigation o = true) ops →
  data (handle p has_window w ops).1 = data w.
Proof.
  intros Hops. unfold handle.
  destruct (commit_state p has_window w (concat (invoke p w <$> ops)))
    as [_ Hdata].
  rewrite Hdata. clear Hdata. apply reduce_without_setData.
  induction Hops as [|o ops Ho _ IH]; simpl; [constructor |].
  apply Forall_app. split; [by apply navigation_without_setData | exact IH].
Qed.

(** X4: inside the table nextStep and prevStep undo each other: one after
    the other, in either order, they bring the wizard back to the step it
    was at, with the data record it had. *)
Theorem nextStep_prevStep_round_trip (w : wizard V) (i : nat)
  (s s' : string) :
  JS.well_formed (stepMapping p) →
  steps p !! i = Some s → steps p !! S i = Some s' →
  (step w = Some s →
   step (run p has_window w [NextStep; PrevStep]).1 = Some s
   ∧ data (run p has_window w [NextStep; PrevStep]).1 = data w)
  ∧ (step w = Some s' →
     step (run p has_window w [PrevStep; NextStep]).1 = Some s'
     ∧ data (run p has_window w [PrevStep; NextStep]).1 = data w).
Proof.
  intros Hwf Hi Hi'. pose proof (steps_nodup p Hwf) as Hnd.
  split; intros Hs; rewrite !run_cons_state; simpl run; cbn [fst].
  - rewrite (dispatch_nextStep_inside p has_window w i s s' Hnd Hi Hi' Hs).
    cbn [fst].
    rewrite (dispatch_prevStep_inside p has_window _ i s' s Hnd Hi Hi')
      by apply render_body_step.
    cbn [fst]. by rewrite render_body_step, !render_body_data.
  - rewrite (dispatch_prevStep_inside p has_window w i s' s Hnd Hi Hi' Hs).
    cbn [fst].
    rewrite (dispatch_nextStep_inside p has_window _ i s s' Hnd Hi Hi')
      by apply render_body_step.
    cbn [fst]. by rewrite render_body_step, !render_body_data.
Qed.

End Moves.

(** ** Walking through the steps *)

Section Walk.

Context {V C : Type} `{EqDecision V}.
Variable p : props V C.
Variable has_window : bool.

Lemma nextStep_walk_from (n : nat) :
  NoDup (steps p) →
  ∀ (w : wizard V) (i : nat) (s : string),
    steps p !! i = Some s → step w = Some s →
    step (run p has_window w (replicate n NextStep)).1
    = steps p !! Nat.min (i + n) (pred (List.length (steps p))).
Proof.
  intros Hnd. induction n as [|n IH]; intros w i s Hi Hs.
  - simpl. rewrite Hs, <- Hi. apply lookup_lt_Some in Hi. f_equal. lia.
  - change (replicate (S n) NextStep) with (NextStep :: replicate n (@NextStep V)).
    rewrite run_cons_state.
    destruct (decide (S i < List.length (steps p))%nat) as [Hlt | Hge].
    + destruct (lookup_lt_is_Some_2 (steps p) (S i) Hlt) as [s' Hi'].
      rewrite (dispatch_nextStep_inside p has_window w i s s' Hnd Hi Hi' Hs).
      cbn [fst].
      rewrite (IH _ (S i) s' Hi') by apply render_body_step.
      f_equal. lia.
    + apply lookup_lt_Some in Hi as Hlt.
      assert (Hlast : last (steps p) = Some s).
      { rewrite last_lookup. rewrite <- Hi. f_equal. lia. }
      rewrite dispatch_commit. simpl invoke.
      rewrite (nextStep_last p w s Hnd Hlast Hs), commit_nil. cbn [fst].
      rewrite (IH w i s Hi Hs). f_equal. lia.
Qed.

(** X5: from the initial state, n calls of nextStep, one event each, leave
    the wizard at the key number min(n, totalSteps - 1) of the array of
    steps: it walks through the keys in order and then stays at the last
    one. *)
Theorem nextStep_walks_to_the_end (n : nat) :
  stepMapping p ≠ [] → JS.well_formed (stepMapping p) →
  step (run p has_window (mount p has_window).1 (replicate n NextStep)).1
  = steps p !! Nat.min n (pred (List.length (steps p)))
  ∧ ((pred (List.length (steps p)) ≤ n)%nat →
     step (run p has_window (mount p has_window).1
             (replicate n NextStep)).1 = last (steps p)).
Proof.
  intros Hne Hwf. pose proof (steps_nodup p Hwf) as Hnd.
  destruct (JSFacts.own_keys_nonempty (stepMapping p) Hne) as [s Hs].
  fold (steps p) in Hs.
  assert (H0 : steps p !! 0%nat = Some s) by (by rewrite <- head_lookup).
  assert (Hwalk :
    step (run p has_window (mount p has_window).1 (replicate n NextStep)).1
    = steps p !! Nat.min n (pred (List.length (steps p)))).
  { rewrite (nextStep_walk_from n Hnd _ 0 s H0); [done |].
    by rewrite mount_state, render_body_step. }
  split; [exact Hwalk |].
  intros Hn. rewrite Hwalk, last_lookup. f_equal. lia.
Qed.

End Walk.

(** ** Several calls in one event handler *)

Section Handlers.

Context {V C : Type} `{EqDecision V}.
Variable p : props V C.
Variable has_window : bool.

Lemma reduce_app (acts1 acts2 : list (action V)) s d n :
  reduce (acts1 ++ acts2) s d n
  = reduce acts2 (reduce acts1 s d n).1.1 (reduce acts1 s d n).1.2
      (reduce acts1 s d n).2.
Proof.
  revert s d n. induction acts1 as [|a acts1 IH]; intros s d n; [done |].
  destruct a; simpl; apply IH.
Qed.

Lemma commit_by_reduce (w : wizard V) (acts1 acts2 : list (action V)) :
  reduce acts1 (step w) (data w) (next_ref w)
  = reduce acts2 (step w) (data w) (next_ref w) →
  (commit p has_window w acts1).1 = (commit p has_window w acts2).1.
Proof.
  intros Heq. unfold commit. rewrite Heq.
  destruct (reduce acts2 (step w) (data w) (next_ref w)) as [[s d] n].
  by destruct (same_state w s d).
Qed.


Lemma navigation_reduce (w : wizard V) (o : op V) :
  is_navigation o = true →
  (∀ s d n, reduce (invoke p w o) s d n = (s, d, n))
  ∨ (∃ x, ∀ s d n, reduce (invoke p w o) s d n = (x, d, n)).
Proof.
  destruct o as [| | stepId | |]; try discriminate; intros _; simpl.
  - unfold nextStep. destruct (_ <? _); [right | by left].
    eexists. intros s d n. simpl. apply reduce_call.
  - unfold prevStep. destruct (_ >=? _); [right | by left].
    eexists. intros s d n. simpl. apply reduce_call.
  - unfold toStep. destruct (JS.includes _ _); [right | by left].
    eexists. intros s d n. simpl. apply reduce_call.
Qed.

Lemma reduce_repeated (acts : list (action V)) (k : nat) :
  ((∀ s d n, reduce acts s d n = (s, d, n))
   ∨ (∃ x, ∀ s d n, reduce acts s d n = (x, d, n))) →
  ∀ s d n,
    reduce (concat (replicate (S k) acts)) s d n = reduce acts s d n.
Proof.
  intros Hacts. induction k as [|k IH]; intros s d n.
  - simpl. by rewrite app_nil_r.
  - change (concat (replicate (S (S k)) acts))
      with (acts ++ concat (replicate (S k) acts)).
    rewrite reduce_app, IH.
    destruct Hacts as [Hid | [x Hset]].
    + by rewrite !Hid.
    + by rewrite !Hset.
Qed.

(** X6: the operations read the step of the render they were created in.
    A handler that calls the same navigation operation several times
    therefore leaves the wizard in the state one call leaves: nextStep
    called k + 1 times in one handler advances by one step. *)
Theorem repeated_navigation_in_one_handler (w : wizard V) (o : op V)
  (k : nat) :
  is_navigation o = true →
  (handle p has_window w (replicate (S k) o)).1
  = (dispatch p has_window w o).1.
Proof.
  intros Hnav. rewrite dispatch_commit. unfold handle.
  rewrite fmap_replicate. apply commit_by_reduce.
  apply reduce_repeated. by apply navigation_reduce.
Qed.

(** X7: onStepChange receives the data record of the render the operation
    was created in.  In a handler that calls updateData and then nextStep,
    the callback gets the record without the update, while the wizard ends
    with the merged record at the next step. *)
Theorem callback_gets_data_of_its_render (w : wizard V) (a : object V)
  (i : nat) (s s' : string) :
  JS.well_formed (stepMapping p) →
  steps p !! i = Some s → steps p !! S i = Some s' → step w = Some s →
  step (handle p has_window w [UpdateData a; NextStep]).1 = Some s'
  ∧ fields (data (handle p has_window w [UpdateData a; NextStep]).1)
    = fields a ∪ fields (data w)
  ∧ ∃ events,
      (handle p has_window w [UpdateData a; NextStep]).2
      = (if onStepChange p
         then [OnStepChange (Some s') (data w) (Z.of_nat (S i))] else [])
        ++ events
      ∧ ∀ o, o ∈ events → ∃ x j, o = WindowEvent "wizard:step-change" x j.
Proof.
  intros Hwf Hi Hi' Hs. pose proof (steps_nodup p Hwf) as Hnd.
  unfold handle.
  assert (Hacts : concat (invoke p w <$> [UpdateData a; NextStep])
                  = updateData a
                    ++ SetStep (Some s')
                       :: call_onStepChange p (Some s') (data w)
                            (Z.of_nat (S i))).
  { simpl. rewrite app_nil_r.
    by rewrite (nextStep_inside p w i s s' Hnd Hi Hi' Hs). }
  rewrite Hacts. clear Hacts.
  set (acts := updateData a ++ _).
  destruct (commit_state p has_window w acts) as [Hstep Hdata].
  destruct (commit_calls p has_window w acts) as (events & Hout & Hev).
  rewrite Hstep, Hdata, Hout. unfold acts. simpl.
  rewrite reduce_call, calls_call. simpl.
  repeat split. by exists events.
Qed.


Lemma updateData_fields (w : wizard V) (a : object V) :
  fields (data (dispatch p has_window w (UpdateData a)).1)
  = fields a ∪ fields (data w).
Proof.
  rewrite dispatch_commit. simpl.
  by destruct (commit_state p has_window w (updateData a)) as [_ ->].
Qed.

(** X9: successive updates compose by merging: updateData(a) followed by
    updateData(b) leaves the fields that one updateData of the merged
    record leaves; repeating an update changes no field; updating with an
    empty record changes no field. *)
Theorem updateData_composes (w : wizard V) (a b : object V) (r : ref) :
  fields (data (run p has_window w [UpdateData a; UpdateData b]).1)
  = fields (data (dispatch p has_window w
                    (UpdateData (Obj r (spread (fields a) (fields b))))).1)
  ∧ fields (data (run p has_window w [UpdateData a; UpdateData a]).1)
    = fields (data (dispatch p has_window w (UpdateData a)).1)
  ∧ fields (data (dispatch p has_window w (UpdateData (Obj r ∅))).1)
    = fields (data w).
Proof.
  rewrite !run_cons_state. simpl run. cbn [fst].
  rewrite !updateData_fields. unfold spread. simpl.
  repeat split.
  - by rewrite (assoc_L (∪)).
  - by rewrite (assoc_L (∪)), (idemp_L (∪)).
  - by rewrite (left_id_L ∅ (∪)).
Qed.


End Handlers.

(** ** When the effect runs *)

Section Effect.

Context {V C : Type} `{EqDecision V}.
Variable p : props V C.
Variable has_window : bool.

Lemma reduce_counter (acts : list (action V)) s d n :
  (n ≤ (reduce acts s d n).2)%nat.
Proof.
  revert s d n. induction acts as [|a acts IH]; intros s d n; [done |].
  destruct a; simpl; try apply IH.
  etrans; [| apply IH]. lia.
Qed.

Lemma render_body_refs s d n :
  ∃ k, steps_ref (render_body p s d n) = Own k
       ∧ next_ref (render_body p s d n) = S k ∧ (n ≤ k)%nat.
Proof.
  unfold render_body, bind_initialData.
  destruct (initialData p); simpl; eexists; repeat split; lia.
Qed.

Lemma commit_steps_fresh (w : wizard V) (acts : list (action V)) :
  (∃ k, steps_ref w = Own k ∧ (k < next_ref w)%nat) →
  ∃ k, steps_ref (commit p has_window w acts).1 = Own k
       ∧ (k < next_ref (commit p has_window w acts).1)%nat.
Proof.
  intros (k & Hk & Hlt). unfold commit.
  pose proof (reduce_counter acts (step w) (data w) (next_ref w)) as Hn.
  destruct (reduce acts (step w) (data w) (next_ref w)) as [[s d] n].
  destruct (same_state w s d); simpl in *.
  - exists k. split; [done | lia].
  - destruct (render_body_refs s (Some d) n) as (k' & -> & -> & _).
    exists k'. split; [done | lia].
Qed.

Lemma reachable_steps_fresh (os : list (op V)) :
  ∃ k, steps_ref (run p has_window (mount p has_window).1 os).1 = Own k
       ∧ (k < next_ref (run p has_window (mount p has_window).1 os).1)%nat.
Proof.
  assert (H0 : ∃ k, steps_ref (mount p has_window).1 = Own k
                    ∧ (k < next_ref (mount p has_window).1)%nat).
  { rewrite mount_state.
    destruct (render_body_refs (head (steps p)) None 0) as (k & -> & -> & _).
    exists k. split; [done | lia]. }
  revert H0. generalize (mount p has_window).1.
  induction os as [|o os IH]; intros w Hw; [done |].
  rewrite run_cons_state. apply IH. rewrite dispatch_commit.
  by apply commit_steps_fresh.
Qed.

Lemma commit_outputs (w : wizard V) (acts : list (action V)) :
  (∃ k, steps_ref w = Own k ∧ (k < next_ref w)%nat) →
  (commit p has_window w acts).2
  = calls acts
    ++ (if bool_decide (step (commit p has_window w acts).1 = step w
                        ∧ data (commit p has_window w acts).1 = data w)
        then []
        else step_change_effect p has_window (commit p has_window w acts).1).
Proof.
  intros (k & Hk & Hlt). unfold commit.
  pose proof (reduce_counter acts (step w) (data w) (next_ref w)) as Hn.
  destruct (reduce acts (step w) (data w) (next_ref w)) as [[s d] n].
  unfold same_state.
  destruct (bool_decide_reflect (s = step w)) as [Hs | Hs];
    [destruct (bool_decide_reflect (d = data w)) as [Hd | Hd] |]; simpl.
  - rewrite bool_decide_eq_true_2 by done. by rewrite app_nil_r.
  - rewrite render_body_step, render_body_data.
    rewrite bool_decide_eq_false_2 by (intros [_ ?]; done).
    f_equal. unfold same_deps, deps_of. simpl.
    destruct (render_body_refs s (Some d) n) as (k' & -> & _ & Hk').
    rewrite Hk.
    rewrite (bool_decide_eq_false_2 (Own k = Own k'))
      by (intros [= ->]; simpl in *; lia).
    by rewrite andb_false_r.
  - rewrite render_body_step, render_body_data.
    rewrite bool_decide_eq_false_2 by (intros [? _]; done).
    f_equal. unfold same_deps, deps_of. simpl. rewrite render_body_step.
    by rewrite (bool_decide_eq_false_2 (step w = s)) by done.
Qed.

(** X11: the effect runs once after mount and once after every event
    handler that left another step or another data object in the state,
    and after no other: in every state reached from mount, the outputs of
    a handler are the calls of onStepChange it made, followed by the
    outputs of the effect for the new state exactly when the state
    changed. *)
Theorem effect_runs_after_every_change (os ops : list (op V)) :
  (mount p has_window).2 = step_change_effect p has_window (mount p has_window).1
  ∧ (handle p has_window (run p has_window (mount p has_window).1 os).1 ops).2
    = calls (concat
               (invoke p (run p has_window (mount p has_window).1 os).1
                  <$> ops))
      ++ (if bool_decide
               (step (handle p has_window
                        (run p has_window (mount p has_window).1 os).1 ops).1
                = step (run p has_window (mount p has_window).1 os).1
                ∧ data (handle p has_window
                          (run p has_window (mount p has_window).1 os).1
                          ops).1
                  = data (run p has_window (mount p has_window).1 os).1)
          then []
          else step_change_effect p has_window
                 (handle p has_window
                    (run p has_window (mount p has_window).1 os).1 ops).1).
Proof.
  split; [reflexivity |].
  unfold handle. apply commit_outputs, reachable_steps_fresh.
Qed.

(** *** Allocation *)

Lemma known_mono (n m : nat) (o : object V) :
  (n ≤ m)%nat → known n o → known m o.
Proof. intros Hle Ho k Hk. specialize (Ho k Hk). lia. Qed.

Lemma from_caller_known (n : nat) (o : object V) : from_caller o → known n o.
Proof. intros [m Hm] k Hk. congruence. Qed.

Lemma render_body_allocated s (d : option (object V)) n :
  (∀ o, initialData p = Some o → from_caller o) →
  (∀ o, d = Some o → known n o) →
  allocated (render_body p s d n).
Proof.
  intros Hinit Hd. unfold render_body, bind_initialData, allocated.
  destruct (initialData p) as [o|] eqn:E; simpl.
  - split; [exists n; split; [done | lia] |].
    split; [| by apply from_caller_known, Hinit].
    destruct d as [o'|]; simpl;
      [apply (known_mono n); [lia | by apply Hd]
      | by apply from_caller_known, Hinit].
  - split; [exists (S n); split; [done | lia] |].
    assert (Hfresh : known (S (S n)) (Obj (Own n) (∅ : gmap string V)))
      by (intros k [= <-]; lia).
    split; [| exact Hfresh].
    destruct d as [o'|]; simpl;
      [apply (known_mono n); [lia | by apply Hd] | exact Hfresh].
Qed.

Lemma reduce_known (acts : list (action V)) s d n :
  Forall (λ a, ∀ d', a = SetData d' → known n d') acts →
  known n d →
  known (reduce acts s d n).2 (reduce acts s d n).1.2.
Proof.
  revert s d n. induction acts as [|a acts IH]; intros s d n Hacts Hd;
    [done |].
  apply Forall_cons in Hacts as [Ha Hacts].
  destruct a as [s' | d' | f | o]; simpl.
  - by apply IH.
  - apply IH; [done | by apply Ha].
  - apply IH.
    + eapply Forall_impl; [exact Hacts |].
      intros a Ha' d' ->. apply (known_mono n); [lia | by apply Ha'].
    + intros k [= <-]. lia.
  - by apply IH.
Qed.

Lemma invoke_known (w : wizard V) (o : op V) :
  allocated w → (∀ d, o = ResetData (Some d) → from_caller d) →
  Forall (λ a, ∀ d', a = SetData d' → known (next_ref w) d') (invoke p w o).
Proof.
  intros (_ & _ & Hinit) Ho.
  assert (Hcall : ∀ s d i,
            Forall (λ a : action V, ∀ d', a = SetData d' →
                      known (next_ref w) d') (call_onStepChange p s d i)).
  { intros s d i. unfold call_onStepChange.
    destruct (onStepChange p); repeat constructor; discriminate. }
  destruct o as [| | stepId | newData | newData]; simpl.
  - unfold nextStep. destruct (_ <? _); [| constructor].
    constructor; [discriminate | apply Hcall].
  - unfold prevStep. destruct (_ >=? _); [| constructor].
    constructor; [discriminate | apply Hcall].
  - unfold toStep. destruct (JS.includes _ _); [| constructor].
    constructor; [discriminate | apply Hcall].
  - unfold updateData. repeat constructor. discriminate.
  - unfold resetData. constructor; [| constructor; [discriminate | apply Hcall]].
    intros d' [= <-]. destruct newData as [d|]; simpl; [| exact Hinit].
    by apply from_caller_known, Ho.
Qed.

Lemma dispatch_allocated (w : wizard V) (o : op V) :
  (∀ o', initialData p = Some o' → from_caller o') →
  (∀ d, o = ResetData (Some d) → from_caller d) →
  allocated w → allocated (dispatch p has_window w o).1.
Proof.
  intros Hinit Ho Hw. rewrite dispatch_commit. unfold commit.
  pose proof (reduce_known (invoke p w o) (step w) (data w) (next_ref w)
                (invoke_known w o Hw Ho) (proj1 (proj2 Hw))) as Hd.
  pose proof (reduce_counter (invoke p w o) (step w) (data w) (next_ref w))
    as Hn.
  destruct (reduce (invoke p w o) (step w) (data w) (next_ref w))
    as [[s d] n].
  simpl in Hd, Hn.
  destruct (same_state w s d); simpl.
  - destruct Hw as ((k & Hk & Hlt) & Hdata & Hinit').
    split; [exists k; split; [done | simpl; lia] |]. simpl.
    split; by eapply known_mono.
  - apply render_body_allocated; [done |]. by intros ? [= <-].
Qed.

Lemma reachable_allocated (os : list (op V)) :
  caller_objects p os →
  allocated (run p has_window (mount p has_window).1 os).1.
Proof.
  intros [Hinit Hos].
  assert (H0 : allocated (mount p has_window).1).
  { rewrite mount_state. by apply render_body_allocated. }
  revert H0. generalize (mount p has_window).1.
  induction Hos as [|o os Ho _ IH]; intros w Hw; [done |].
  rewrite run_cons_state. apply IH. by apply dispatch_allocated.
Qed.

(** X12: with trackSteps on and a window, every updateData emits one event
    wizard:step-change for the step the wizard is at and stays at: the
    merged record is a new object, the component renders again, and the
    effect runs.  This holds in every state reached from mount, when the
    records given to the wizard are the application's own. *)
Theorem updateData_always_emits (os : list (op V)) (a : object V) :
  caller_objects p os → tracking p && has_window = true →
  step (dispatch p has_window
          (run p has_window (mount p has_window).1 os).1 (UpdateData a)).1
  = step (run p has_window (mount p has_window).1 os).1
  ∧ (dispatch p has_window
       (run p has_window (mount p has_window).1 os).1 (UpdateData a)).2
    = [WindowEvent "wizard:step-change"
         (step (run p has_window (mount p has_window).1 os).1)
         (stepIndex p (run p has_window (mount p has_window).1 os).1)].
Proof.
  intros Hcaller Htrack.
  pose proof (reachable_allocated os Hcaller) as (_ & Hdata & _).
  pose proof (reachable_steps_fresh os) as Hfresh.
  set (w := (run p has_window (mount p has_window).1 os).1) in *.
  rewrite dispatch_commit. simpl invoke.
  rewrite (commit_outputs w _ Hfresh).
  destruct (commit_state p has_window w (updateData a)) as [Hstep Hd].
  simpl in Hstep, Hd. split; [exact Hstep |].
  rewrite bool_decide_eq_false_2.
  - simpl. unfold step_change_effect. rewrite Htrack, Hstep. reflexivity.
  - intros [_ Heq]. rewrite Hd in Heq.
    specialize (Hdata (next_ref w)). rewrite <- Heq in Hdata.
    specialize (Hdata eq_refl). lia.
Qed.

Lemma calls_silent (w : wizard V) (o : op V) :
  onStepChange p = false → calls (invoke p w o) = [].
Proof.
  intros Hcb.
  assert (Hcall : ∀ s d i, call_onStepChange p s d i = [])
    by (intros; unfold call_onStepChange; by rewrite Hcb).
  destruct o; simpl.
  - unfold nextStep. destruct (_ <? _); [| done]. by rewrite Hcall.
  - unfold prevStep. destruct (_ >=? _); [| done]. by rewrite Hcall.
  - unfold toStep. destruct (JS.includes _ _); [| done]. by rewrite Hcall.
  - done.
  - unfold resetData. by rewrite Hcall.
Qed.

(** X13: a wizard without onStepChange and with tracking off, or without
    a window, is silent: mounting it and any sequence of operations, from
    any state, produce no output at all. *)
Theorem silent_without_observers (w : wizard V) (os : list (op V)) :
  onStepChange p = false → tracking p && has_window = false →
  (mount p has_window).2 = [] ∧ (run p has_window w os).2 = [].
Proof.
  intros Hcb Htrack.
  assert (Heffect : ∀ previous w', run_effect p has_window previous w' = []).
  { intros previous w'. unfold run_effect, step_change_effect.
    rewrite Htrack. destruct previous as [d|]; [| done].
    by destruct (same_deps _ _). }
  split; [apply Heffect |].
  revert w. induction os as [|o os IH]; intros w; [done |].
  cbn [run].
  assert (Hout : (dispatch p has_window w o).2 = []).
  { rewrite dispatch_commit. unfold commit.
    destruct (reduce _ _ _ _) as [[s d] n].
    destruct (same_state w s d); cbn [snd]; rewrite calls_silent by done;
      [done | by rewrite Heffect]. }
  destruct (dispatch p has_window w o) as [w1 out1]. simpl in Hout.
  specialize (IH w1). destruct (run p has_window w1 os) as [w2 out2].
  simpl in *. by rewrite Hout, IH.
Qed.

End Effect.

(** ** What the wizard shows *)

Section Shown.

Context {V C : Type} `{EqDecision V}.
Variable p : props V C.
Variable has_window : bool.

(** X14: a wizard whose StepMapping has at least one key never shows the
    placeholder: in every state reached from mount it returns the provider
    around the step-view registered under the current step, and the test
    id of that step-view is the parent test id, "-step-" and the step. *)
Theorem step_view_always_rendered (os : list (op V)) :
  stepMapping p ≠ [] →
  ∃ s component,
    step (run p has_window (mount p has_window).1 os).1 = Some s
    ∧ JS.get_prop (stepMapping p) s = Some component
    ∧ view p (run p has_window (mount p has_window).1 os).1
      = Provided
          (context_value p (run p has_window (mount p has_window).1 os).1)
          (parentTestId p +:+ "-provider") component
          (step_props p (run p has_window (mount p has_window).1 os).1)
    ∧ sp_testid
        (step_props p (run p has_window (mount p has_window).1 os).1)
      = parentTestId p +:+ "-step-" +:+ s.
Proof.
  intros Hne.
  pose proof (run_keeps_key p has_window _ os Hne
                (mount_has_key p has_window Hne)) as (s & Hs & Hin).
  destruct (get_prop_key (stepMapping p) s Hin) as [component Hc].
  exists s, component. repeat split; [done | done | |].
  - unfold view, CurrentStepComponent. rewrite Hs.
    cbn [JS.to_property_key]. by rewrite Hc.
  - unfold step_props. cbn [sp_testid]. by rewrite Hs.
Qed.

Lemma invoke_sets_none (w : wizard V) (o : op V) (x : option string) :
  stepMapping p = [] → SetStep x ∈ invoke p w o → x = None.
Proof.
  intros Hempty Hin.
  assert (Hsteps : steps p = []) by (unfold steps; by rewrite Hempty).
  destruct o as [| | stepId | newData | newData]; simpl in Hin.
  - unfold nextStep in Hin. rewrite Hsteps in Hin.
    destruct (step w); simpl in Hin; inversion Hin.
  - unfold prevStep in Hin. rewrite Hsteps in Hin.
    destruct (step w); simpl in Hin; inversion Hin.
  - unfold toStep in Hin. rewrite Hsteps in Hin. inversion Hin.
  - unfold updateData in Hin. apply list_elem_of_singleton in Hin.
    discriminate.
  - unfold resetData in Hin. rewrite Hsteps in Hin.
    apply elem_of_cons in Hin as [[=] | Hin].
    apply elem_of_cons in Hin as [[= ->] | Hin]; [done |].
    by apply call_not_set in Hin.
Qed.

(** X15: a wizard whose StepMapping is empty has no step at all: after
    mount and after any sequence of operations the step is undefined,
    stepIndex is -1, totalSteps is 0, and the wizard shows the "Step not
    found" placeholder. *)
Theorem empty_table_shows_placeholder (os : list (op V)) :
  stepMapping p = [] →
  step (run p has_window (mount p has_window).1 os).1 = None
  ∧ stepIndex p (run p has_window (mount p has_window).1 os).1 = -1
  ∧ totalSteps p (run p has_window (mount p has_window).1 os).1 = 0
  ∧ view p (run p has_window (mount p has_window).1 os).1
    = NotFound (parentTestId p +:+ "-not-found") "Step not found".
Proof.
  intros Hempty.
  assert (Hsteps : steps p = []) by (unfold steps; by rewrite Hempty).
  assert (Hstep : step (run p has_window (mount p has_window).1 os).1 = None).
  { assert (H0 : step (mount p has_window).1 = None)
      by (by rewrite mount_state, render_body_step, Hsteps).
    revert H0. generalize (mount p has_window).1.
    induction os as [|o os IH]; intros w Hw; [done |].
    rewrite run_cons_state. apply IH. rewrite dispatch_commit.
    destruct (commit_state p has_window w (invoke p w o)) as [-> _].
    destruct (reduce_step (invoke p w o) (step w) (data w) (next_ref w))
      as [-> | Hin]; [done |].
    by apply invoke_sets_none in Hin. }
  split; [exact Hstep |].
  unfold stepIndex, totalSteps, view, CurrentStepComponent, context_value.
  cbn [c_stepIndex c_totalSteps].
  by rewrite Hstep, Hsteps, Hempty.
Qed.

(** X16: what a descendant of the step-view reads from the context is
    what the step-view got as props: the same data record, step, stepIndex,
    totalSteps and trackSteps, and the same five operations. *)
Theorem context_matches_step_props (w : wizard V)
  (inner outer : list (ancestor V)) :
  is_Some (CurrentStepComponent p w) →
  Forall (λ a, a = Plain) inner →
  ∃ value testid component sp,
    view p w = Provided value testid component sp
    ∧ useWizardContext (inner ++ scopes_of (view p w) ++ outer)
      = Returns value
    ∧ c_data value = sp_data sp
    ∧ c_step value = sp_step sp
    ∧ c_stepIndex value = sp_stepIndex sp
    ∧ c_totalSteps value = sp_totalSteps sp
    ∧ c_trackSteps value = sp_trackSteps sp
    ∧ c_nextStep value = sp_nextStep sp
    ∧ c_prevStep value = sp_prevStep sp
    ∧ c_toStep value = sp_toStep sp
    ∧ c_updateData value = sp_updateData sp
    ∧ c_resetData value = sp_resetData sp.
Proof.
  intros [component Hc] Hplain. unfold view. rewrite Hc.
  eexists _, _, _, _. split; [reflexivity |].
  split; [| by repeat split].
  unfold useWizardContext. simpl. by rewrite useContext_nearest.
Qed.

End Shown.

(** ** The further properties on sample wizards *)

Lemma prevStep_moves_back_witness :
  JS.well_formed (stepMapping plain_abc)
  ∧ steps plain_abc !! 0%nat = Some "a"%string
  ∧ steps plain_abc !! 1%nat = Some "b"%string
  ∧ step (dispatch plain_abc true (mount plain_abc true).1 NextStep).1
    = Some "b"%string
  ∧ step (dispatch plain_abc true
            (dispatch plain_abc true (mount plain_abc true).1 NextStep).1
            PrevStep).1 = Some "a"%string.
Proof.
  assert (H1 : JS.well_formed (stepMapping plain_abc)) by by_decide.
  assert (H2 : steps plain_abc !! 0%nat = Some "a"%string) by reflexivity.
  assert (H3 : steps plain_abc !! 1%nat = Some "b"%string) by reflexivity.
  assert (H4 : step (dispatch plain_abc true (mount plain_abc true).1
                       NextStep).1 = Some "b"%string)
    by (vm_compute; reflexivity).
  repeat (split; [assumption |]).
  exact (proj1 (prevStep_moves_back plain_abc true _ 0%nat "b"%string
                  "a"%string H1 H2 H3 H4)).
Defined.

Lemma toStep_jumps_witness :
  JS.well_formed (stepMapping plain_abc)
  ∧ steps plain_abc !! 2%nat = Some "c"%string
  ∧ step (mount plain_abc true).1 ≠ Some "c"%string
  ∧ step (dispatch plain_abc true (mount plain_abc true).1 (ToStep "c")).1
    = Some "c"%string.
Proof.
  assert (H1 : JS.well_formed (stepMapping plain_abc)) by by_decide.
  assert (H2 : steps plain_abc !! 2%nat = Some "c"%string) by reflexivity.
  assert (H3 : step (mount plain_abc true).1 ≠ Some "c"%string)
    by (vm_compute; discriminate).
  repeat (split; [assumption |]).
  exact (proj1 (toStep_jumps plain_abc true _ 2%nat "c"%string H1 H2 H3)).
Defined.

Lemma navigation_keeps_data_witness :
  Forall (λ o : op Z, is_navigation o = true)
    [NextStep; ToStep "c"%string; PrevStep]
  ∧ data (handle seeded_abc true (mount seeded_abc true).1
            [NextStep; ToStep "c"%string; PrevStep]).1
    = data (mount seeded_abc true).1.
Proof.
  assert (H1 : Forall (λ o : op Z, is_navigation o = true)
                 [NextStep; ToStep "c"%string; PrevStep])
    by (repeat constructor).
  split; [assumption |].
  exact (navigation_keeps_data seeded_abc true _ _ H1).
Defined.

Lemma nextStep_prevStep_round_trip_witness :
  JS.well_formed (stepMapping plain_abc)
  ∧ steps plain_abc !! 0%nat = Some "a"%string
  ∧ steps plain_abc !! 1%nat = Some "b"%string
  ∧ step (mount plain_abc true).1 = Some "a"%string
  ∧ step (run plain_abc true (mount plain_abc true).1
            [NextStep; PrevStep]).1 = Some "a"%string.
Proof.
  assert (H1 : JS.well_formed (stepMapping plain_abc)) by by_decide.
  assert (H2 : steps plain_abc !! 0%nat = Some "a"%string) by reflexivity.
  assert (H3 : steps plain_abc !! 1%nat = Some "b"%string) by reflexivity.
  assert (H4 : step (mount plain_abc true).1 = Some "a"%string)
    by reflexivity.
  repeat (split; [assumption |]).
  exact (proj1 (proj1 (nextStep_prevStep_round_trip plain_abc true
                         (mount plain_abc true).1 0%nat "a"%string
                         "b"%string H1 H2 H3) H4)).
Defined.

Lemma nextStep_walks_to_the_end_witness :
  stepMapping plain_abc ≠ []
  ∧ JS.well_formed (stepMapping plain_abc)
  ∧ step (run plain_abc true (mount plain_abc true).1
            (replicate 5 NextStep)).1 = Some "c"%string.
Proof.
  assert (H1 : stepMapping plain_abc ≠ []) by discriminate.
  assert (H2 : JS.well_formed (stepMapping plain_abc)) by by_decide.
  repeat (split; [assumption |]).
  exact (proj1 (nextStep_walks_to_the_end plain_abc true 5 H1 H2)).
Defined.

Lemma repeated_navigation_in_one_handler_witness :
  is_navigation (@NextStep Z) = true
  ∧ (handle plain_abc true (mount plain_abc true).1
       (replicate 3 NextStep)).1
    = (dispatch plain_abc true (mount plain_abc true).1 NextStep).1.
Proof.
  assert (H1 : is_navigation (@NextStep Z) = true) by reflexivity.
  split; [assumption |].
  exact (repeated_navigation_in_one_handler plain_abc true
           (mount plain_abc true).1 NextStep 2 H1).
Defined.

Lemma callback_gets_data_of_its_render_witness :
  JS.well_formed (stepMapping plain_abc)
  ∧ steps plain_abc !! 0%nat = Some "a"%string
  ∧ steps plain_abc !! 1%nat = Some "b"%string
  ∧ step (mount plain_abc true).1 = Some "a"%string
  ∧ fields (data (handle plain_abc true (mount plain_abc true).1
                    [UpdateData record_x1; NextStep]).1)
    = fields record_x1 ∪ fields (data (mount plain_abc true).1).
Proof.
  assert (H1 : JS.well_formed (stepMapping plain_abc)) by by_decide.
  assert (H2 : steps plain_abc !! 0%nat = Some "a"%string) by reflexivity.
  assert (H3 : steps plain_abc !! 1%nat = Some "b"%string) by reflexivity.
  assert (H4 : step (mount plain_abc true).1 = Some "a"%string)
    by reflexivity.
  repeat (split; [assumption |]).
  exact (proj1 (proj2 (callback_gets_data_of_its_render plain_abc true
                         (mount plain_abc true).1 record_x1 0%nat
                         "a"%string "b"%string H1 H2 H3 H4))).
Defined.

Lemma updateData_always_emits_witness :
  caller_objects tracked_abc [ResetData (Some record_x9); NextStep]
  ∧ tracking tracked_abc && true = true
  ∧ (dispatch tracked_abc true
       (run tracked_abc true (mount tracked_abc true).1
          [ResetData (Some record_x9); NextStep]).1
       (UpdateData record_x1)).2
    = [WindowEvent "wizard:step-change"
         (step (run tracked_abc true (mount tracked_abc true).1
                  [ResetData (Some record_x9); NextStep]).1)
         (stepIndex tracked_abc
            (run tracked_abc true (mount tracked_abc true).1
               [ResetData (Some record_x9); NextStep]).1)].
Proof.
  assert (H1 : caller_objects tracked_abc
                 [ResetData (Some record_x9); NextStep]).
  { split; [intros o [=] |].
    repeat constructor; intros d [=]. subst d. by exists 1%nat. }
  assert (H2 : tracking tracked_abc && true = true) by reflexivity.
  repeat (split; [assumption |]).
  exact (proj2 (updateData_always_emits tracked_abc true _ record_x1 H1 H2)).
Defined.

Lemma silent_without_observers_witness :
  onStepChange no_steps = false
  ∧ tracking no_steps && true = false
  ∧ (run no_steps true (mount no_steps true).1
       [NextStep; UpdateData record_x1; ResetData None]).2 = [].
Proof.
  assert (H1 : onStepChange no_steps = false) by reflexivity.
  assert (H2 : tracking no_steps && true = false) by reflexivity.
  repeat (split; [assumption |]).
  exact (proj2 (silent_without_observers no_steps true _ _ H1 H2)).
Defined.

Lemma step_view_always_rendered_witness :
  stepMapping plain_abc ≠ []
  ∧ ∃ s component,
      step (run plain_abc true (mount plain_abc true).1
              [NextStep; UpdateData record_x1]).1 = Some s
      ∧ JS.get_prop (stepMapping plain_abc) s = Some component.
Proof.
  assert (H1 : stepMapping plain_abc ≠ []) by discriminate.
  split; [assumption |].
  destruct (step_view_always_rendered plain_abc true
              [NextStep; UpdateData record_x1] H1)
    as (s & component & Hs & Hc & _).
  by exists s, component.
Defined.

Lemma empty_table_shows_placeholder_witness :
  stepMapping no_steps = []
  ∧ view no_steps
      (run no_steps true (mount no_steps true).1
         [NextStep; ResetData None; ToStep "a"%string]).1
    = NotFound "wizard-not-found" "Step not found".
Proof.
  assert (H1 : stepMapping no_steps = []) by reflexivity.
  split; [assumption |].
  exact (proj2 (proj2 (proj2
           (empty_table_shows_placeholder no_steps true
              [NextStep; ResetData None; ToStep "a"%string] H1)))).
Defined.

Lemma context_matches_step_props_witness :
  is_Some (CurrentStepComponent plain_abc (mount plain_abc true).1)
  ∧ Forall (λ a : ancestor Z, a = Plain) [Plain]
  ∧ ∃ value testid component sp,
      view plain_abc (mount plain_abc true).1
      = Provided value testid component sp
      ∧ c_data value = sp_data sp.
Proof.
  assert (H1 : is_Some
                 (CurrentStepComponent plain_abc (mount plain_abc true).1))
    by (by eexists).
  assert (H2 : Forall (λ a : ancestor Z, a = Plain) [Plain])
    by (repeat constructor).
  repeat (split; [assumption |]).
  destruct (context_matches_step_props plain_abc (mount plain_abc true).1
              [Plain] [] H1 H2)
    as (value & testid & component & sp & Hview & _ & Hdata & _).
  by exists value, testid, component, sp.
Defined.

(** ** Step and index in the outputs *)

Section Outputs.

Context {V C : Type} `{EqDecision V}.
Variable p : props V C.
Variable has_window : bool.









End Outputs.

